(** * sgo/annotations: the .sgoann tokenizer and recursive-descent parser

    A shallow embedding of [sgo/annotations/parse.go]: the rune-level
    [Tokenizer] with its one-slot lookahead, the grammar functions
    [parseList], [parseItem], [parseName], [parseReceiver], [parseIdent],
    [parseDef], [parseType] and [expect], and the three error values.

    Go's [string] is a byte sequence: it is modelled as [string] (a list of
    8-bit characters).  Go's [int] and [rune] are modelled as [Z]; every
    counter of the tokenizer lies between 0 and [len(src)] on the states the
    program builds (lemma [reachable_inv]), so no machine wrap-around can
    occur there.  A [map[string]string] is a [gmap string string], with
    [None] standing for Go's nil map. *)

From Stdlib Require Import ZArith Ascii String List Lia Bool.
From stdpp Require Import gmap strings.

Local Open Scope Z_scope.

(** ** Bytes and strings *)

Definition byte_val (c : ascii) : Z := Z.of_N (N_of_ascii c).

Definition byte_of (z : Z) : ascii := ascii_of_N (Z.to_N z).

(** [len(s)] *)
Definition len (s : string) : Z := Z.of_nat (String.length s).

(** [s[n:]] for [0 <= n <= len(s)]. *)
Fixpoint string_from (n : nat) (s : string) : string :=
  match n, s with
  | O, _ => s
  | S n', String _ s' => string_from n' s'
  | S _, EmptyString => EmptyString
  end.

(** [s[:n]] for [0 <= n <= len(s)]. *)
Fixpoint string_to (n : nat) (s : string) : string :=
  match n, s with
  | S n', String c s' => String c (string_to n' s')
  | _, _ => EmptyString
  end.

(** [s[i]] for [0 <= i < len(s)] (0 elsewhere). *)
Definition byte_at (s : string) (i : Z) : Z :=
  match String.get (Z.to_nat i) s with
  | Some c => byte_val c
  | None => 0
  end.

(** ** unicode/utf8 *)

Module utf8.

Definition RuneError : Z := 0xFFFD.
Definition RuneSelf : Z := 0x80.
Definition MaxRune : Z := 0x10FFFF.
Definition UTFMax : Z := 4.

Definition locb : Z := 0x80.
Definition hicb : Z := 0xBF.

(** The entries of the [first] table: [xx] invalid, [as_] ASCII, the others
    carry the size in the low three bits and the index of the accept range
    in the high four. *)
Definition xx : Z := 0xF1.
Definition as_ : Z := 0xF0.
Definition s1 : Z := 0x02.
Definition s2 : Z := 0x13.
Definition s3 : Z := 0x03.
Definition s4 : Z := 0x23.
Definition s5 : Z := 0x34.
Definition s6 : Z := 0x04.
Definition s7 : Z := 0x44.

Definition first (b : Z) : Z :=
  if b <? 0x80 then as_
  else if b <? 0xC2 then xx
  else if b <? 0xE0 then s1
  else if b =? 0xE0 then s2
  else if b <? 0xED then s3
  else if b =? 0xED then s4
  else if b <? 0xF0 then s3
  else if b =? 0xF0 then s5
  else if b <? 0xF4 then s6
  else if b =? 0xF4 then s7
  else xx.

(** [acceptRanges[i]] as the pair (lo, hi). *)
Definition acceptRanges (i : Z) : Z * Z :=
  if i =? 0 then (locb, hicb)
  else if i =? 1 then (0xA0, hicb)
  else if i =? 2 then (locb, 0x9F)
  else if i =? 3 then (0x90, hicb)
  else if i =? 4 then (locb, 0x8F)
  else (0, 0).

Definition mask2 : Z := 0x1F.
Definition mask3 : Z := 0x0F.
Definition mask4 : Z := 0x07.
Definition maskx : Z := 0x3F.

(** [utf8.DecodeRuneInString]: the first rune of [s] and its width in
    bytes; [(RuneError, 0)] on the empty string and [(RuneError, 1)] on an
    invalid encoding. *)
Definition DecodeRuneInString (s : string) : Z * Z :=
  match s with
  | EmptyString => (RuneError, 0)
  | String c0 r0 =>
    let b0 := byte_val c0 in
    let x := first b0 in
    if as_ <=? x then
      ((if Z.testbit x 0 then RuneError else b0), 1)
    else
      let sz := Z.land x 7 in
      let accept := acceptRanges (Z.shiftr x 4) in
      if len s <? sz then (RuneError, 1) else
      match r0 with
      | EmptyString => (RuneError, 1)
      | String c1 r1 =>
        let b1 := byte_val c1 in
        if (b1 <? fst accept) || (snd accept <? b1) then (RuneError, 1)
        else if sz <=? 2 then
          (Z.lor (Z.shiftl (Z.land b0 mask2) 6) (Z.land b1 maskx), 2)
        else
        match r1 with
        | EmptyString => (RuneError, 1)
        | String c2 r2 =>
          let b2 := byte_val c2 in
          if (b2 <? locb) || (hicb <? b2) then (RuneError, 1)
          else if sz <=? 3 then
            (Z.lor (Z.lor (Z.shiftl (Z.land b0 mask3) 12)
                          (Z.shiftl (Z.land b1 maskx) 6))
                   (Z.land b2 maskx), 3)
          else
          match r2 with
          | EmptyString => (RuneError, 1)
          | String c3 _ =>
            let b3 := byte_val c3 in
            if (b3 <? locb) || (hicb <? b3) then (RuneError, 1)
            else
              (Z.lor (Z.lor (Z.lor (Z.shiftl (Z.land b0 mask4) 18)
                                   (Z.shiftl (Z.land b1 maskx) 12))
                            (Z.shiftl (Z.land b2 maskx) 6))
                     (Z.land b3 maskx), 4)
          end
        end
      end
  end.

(** [utf8.RuneStart] *)
Definition RuneStart (b : Z) : bool := negb (Z.land b 0xC0 =? 0x80).

(** [utf8.DecodeLastRuneInString]: its loop runs [start] down from
    [end - 2] to [lim] and stops at the first byte that starts a rune. *)
Definition DecodeLastRuneInString (s : string) : Z * Z :=
  let end_ := len s in
  if end_ =? 0 then (RuneError, 0) else
  let r := byte_at s (end_ - 1) in
  if r <? RuneSelf then (r, 1) else
  let lim := Z.max (end_ - UTFMax) 0 in
  let start :=
    if end_ - 2 <? lim then end_ - 2
    else if RuneStart (byte_at s (end_ - 2)) then end_ - 2
    else if end_ - 3 <? lim then end_ - 3
    else if RuneStart (byte_at s (end_ - 3)) then end_ - 3
    else if end_ - 4 <? lim then end_ - 4
    else if RuneStart (byte_at s (end_ - 4)) then end_ - 4
    else end_ - 5 in
  let start := if start <? 0 then 0 else start in
  let '(r, size) := DecodeRuneInString (string_from (Z.to_nat start) s) in
  if negb (start + size =? end_) then (RuneError, 1) else (r, size).

Definition surrogateMin : Z := 0xD800.
Definition surrogateMax : Z := 0xDFFF.

(** The conversion [string(r)] of a rune: its UTF-8 encoding, and the
    encoding of [RuneError] for a value that is not a Unicode scalar. *)
Definition string_of_rune (r : Z) : string :=
  if (0 <=? r) && (r <? 0x80) then String (byte_of r) EmptyString
  else if (0 <=? r) && (r <? 0x800) then
    String (byte_of (Z.lor 0xC0 (Z.shiftr r 6)))
   (String (byte_of (Z.lor 0x80 (Z.land r maskx))) EmptyString)
  else if (r <? 0) || (MaxRune <? r)
          || ((surrogateMin <=? r) && (r <=? surrogateMax)) then
    String (byte_of 0xEF) (String (byte_of 0xBF) (String (byte_of 0xBD) EmptyString))
  else if r <? 0x10000 then
    String (byte_of (Z.lor 0xE0 (Z.shiftr r 12)))
   (String (byte_of (Z.lor 0x80 (Z.land (Z.shiftr r 6) maskx)))
   (String (byte_of (Z.lor 0x80 (Z.land r maskx))) EmptyString))
  else
    String (byte_of (Z.lor 0xF0 (Z.shiftr r 18)))
   (String (byte_of (Z.lor 0x80 (Z.land (Z.shiftr r 12) maskx)))
   (String (byte_of (Z.lor 0x80 (Z.land (Z.shiftr r 6) maskx)))
   (String (byte_of (Z.lor 0x80 (Z.land r maskx))) EmptyString))).

End utf8.

(** ** unicode *)

(** The range tables [unicode.Letter] and [unicode.Digit] of Go's standard
    library are data outside this repository.  Their Latin-1 part is the
    [properties] array, written out below; what they say of a rune above
    U+00FF is taken as a parameter. *)
Class UnicodeTables := {
  Letter_table : Z -> bool;   (* isExcludingLatin(Letter, r) *)
  Digit_table : Z -> bool     (* isExcludingLatin(Digit, r) *)
}.

Module unicode.

Definition MaxLatin1 : Z := 0xFF.

Definition is_latin1 (r : Z) : bool := (0 <=? r) && (r <=? MaxLatin1).

Definition between (lo hi r : Z) : bool := (lo <=? r) && (r <=? hi).

(** [properties[uint8(r)] & pLmask != 0] *)
Definition latin1_letter (r : Z) : bool :=
  between 0x41 0x5A r || between 0x61 0x7A r
  || (r =? 0xAA) || (r =? 0xB5) || (r =? 0xBA)
  || between 0xC0 0xD6 r || between 0xD8 0xF6 r || between 0xF8 0xFF r.

(** [isExcludingLatin(White_Space, r)] *)
Definition White_Space_table (r : Z) : bool :=
  (r =? 0x1680) || between 0x2000 0x200A r || between 0x2028 0x2029 r
  || (r =? 0x202F) || (r =? 0x205F) || (r =? 0x3000).

Definition IsSpace (r : Z) : bool :=
  if is_latin1 r then
    (r =? 0x09) || (r =? 0x0A) || (r =? 0x0B) || (r =? 0x0C) || (r =? 0x0D)
    || (r =? 0x20) || (r =? 0x85) || (r =? 0xA0)
  else White_Space_table r.

Definition IsLetter `{UnicodeTables} (r : Z) : bool :=
  if is_latin1 r then latin1_letter r else Letter_table r.

Definition IsDigit `{UnicodeTables} (r : Z) : bool :=
  if r <=? MaxLatin1 then between 0x30 0x39 r else Digit_table r.

End unicode.

(** ** Tokens and errors *)

Record Token := mkToken {
  Lexeme : Z;
  Line : Z;
  Col : Z;
  Size : Z;
  BytePos : Z;
  RunePos : Z
}.

(** [Token{}] *)
Definition Token0 : Token := mkToken 0 0 0 0 0 0.

(** The error values the package returns: [io.EOF] from the tokenizer, the
    package's own [EOF] (unexpected end of file), [UTF8Error] and
    [UnexpectedTokenError]. *)
Inductive error :=
| io_EOF
| EOF
| UTF8Error (line col : Z)
| UnexpectedTokenError (tk : Token).

Definition NewUTF8Error (line col : Z) : error := UTF8Error line col.
Definition NewUnexpectedTokenError (tk : Token) : error := UnexpectedTokenError tk.

Definition is_io_EOF (e : option error) : bool :=
  match e with Some io_EOF => true | _ => false end.

Definition is_nil (e : option error) : bool :=
  match e with None => true | Some _ => false end.

(** ** The tokenizer *)

Record Tokenizer := mkTokenizer {
  src : string;
  bytePos : Z;
  runePos : Z;
  lastLinePos : Z;
  line : Z;
  lookahead : Token
}.

Definition NewTokenizer (s : string) : Tokenizer :=
  mkTokenizer s 0 0 0 1 Token0.

Definition set_lookahead (t : Tokenizer) (tk : Token) : Tokenizer :=
  mkTokenizer (src t) (bytePos t) (runePos t) (lastLinePos t) (line t) tk.

Definition empty (t : Tokenizer) : bool := len (src t) <=? bytePos t.

Definition col (t : Tokenizer) : Z := runePos t - lastLinePos t + 1.

(** [Peek] returns the Go pair [(Token, error)] and the tokenizer after the
    call (only [lookahead] can change).  The slice [t.src[t.bytePos:]] is
    taken where [empty] has answered no; on the states the program builds
    [bytePos] is not negative (lemma [reachable_inv]), so the slice is in
    range. *)
Definition Peek (t : Tokenizer) : (Token * option error) * Tokenizer :=
  if 0 <? Size (lookahead t) then ((lookahead t, None), t)
  else if empty t then ((Token0, Some io_EOF), t)
  else
    let '(r, size) := utf8.DecodeRuneInString (string_from (Z.to_nat (bytePos t)) (src t)) in
    if r =? utf8.RuneError then ((Token0, Some (NewUTF8Error (line t) (col t))), t)
    else
      let tk := mkToken r (line t) (col t) size (bytePos t) (runePos t) in
      ((tk, None), set_lookahead t tk).

Definition Next (t : Tokenizer) : (Token * option error) * Tokenizer :=
  let '((tk, err), t) := Peek t in
  match err with
  | Some e => ((Token0, Some e), t)
  | None =>
    let t := if 0 <? Size (lookahead t) then set_lookahead t Token0 else t in
    let t :=
      if 0 <? Size tk then
        let runePos' := runePos t + 1 in
        let bytePos' := bytePos t + Size tk in
        if Lexeme tk =? 0x0A
        then mkTokenizer (src t) bytePos' runePos' runePos' (line t + 1) (lookahead t)
        else mkTokenizer (src t) bytePos' runePos' (lastLinePos t) (line t) (lookahead t)
      else t in
    ((tk, None), t)
  end.

(** ** strings *)

Module strings.

(** [strings.TrimLeftFunc(s, unicode.IsSpace)]: the runes of [s] are
    decoded from the left and dropped while they are white space. *)
Fixpoint TrimLeftSpace (fuel : nat) (s : string) : string :=
  match fuel, s with
  | S n, String _ _ =>
    let '(r, size) := utf8.DecodeRuneInString s in
    if unicode.IsSpace r then TrimLeftSpace n (string_from (Z.to_nat size) s) else s
  | _, _ => s
  end.

(** [strings.TrimRightFunc(s, unicode.IsSpace)]: the runes of [s] are
    decoded from the right and dropped while they are white space. *)
Fixpoint TrimRightSpace (fuel : nat) (s : string) : string :=
  match fuel, s with
  | S n, String _ _ =>
    let '(r, size) := utf8.DecodeLastRuneInString s in
    if unicode.IsSpace r then TrimRightSpace n (string_to (Z.to_nat (len s - size)) s) else s
  | _, _ => s
  end.

(** [strings.TrimSpace(s)], that is [TrimFunc(s, unicode.IsSpace)]. *)
Definition TrimSpace (s : string) : string :=
  let l := TrimLeftSpace (String.length s) s in
  TrimRightSpace (String.length l) l.

End strings.

(** ** The tokenizer's loops *)

(** The number of tokens the tokenizer can still hand out is bounded by
    [pending]: every [Next] that returns a token makes it smaller, and
    [Peek] never makes it larger.  It is the fuel of the loops below. *)
Definition pending (t : Tokenizer) : nat :=
  if 0 <? Size (lookahead t)
  then S (Z.to_nat (len (src t) - bytePos t - Size (lookahead t)))
  else Z.to_nat (len (src t) - bytePos t).

Fixpoint SkipWhite_loop (fuel : nat) (t : Tokenizer) : Tokenizer :=
  match fuel with
  | O => t
  | S n =>
    let '((tk, err), t) := Peek t in
    if negb (is_nil err) || negb (unicode.IsSpace (Lexeme tk)) then t
    else SkipWhite_loop n (snd (Next t))
  end.

(** [SkipWhite] skips until the next non-whitespace character. *)
Definition SkipWhite (t : Tokenizer) : Tokenizer :=
  SkipWhite_loop (S (pending t)) t.

Fixpoint SkipWhiteUntilLine_loop (fuel : nat) (t : Tokenizer) : Tokenizer :=
  match fuel with
  | O => t
  | S n =>
    let '((tk, err), t) := Peek t in
    if negb (is_nil err) || (Lexeme tk =? 0x0A) || negb (unicode.IsSpace (Lexeme tk)) then t
    else SkipWhiteUntilLine_loop n (snd (Next t))
  end.

(** [SkipWhiteUntilLine] skips until the next new line or non-whitespace
    character. *)
Definition SkipWhiteUntilLine (t : Tokenizer) : Tokenizer :=
  SkipWhiteUntilLine_loop (S (pending t)) t.

(** ** The grammar functions *)

Abbreviation smap := (gmap string string).

(** What a grammar function returns: the Go pair (value, error) and the
    tokenizer it leaves behind. *)
Definition parsed (A : Type) : Type := (A * option error) * Tokenizer.

Definition expect (r : Z) (t : Tokenizer) : option error * Tokenizer :=
  let '((tk, err), t) := Next t in
  match err with
  | Some e => (Some e, t)
  | None =>
    if negb (Lexeme tk =? r) then (Some (NewUnexpectedTokenError tk), t)
    else (None, t)
  end.

Section Grammar.

Context `{UnicodeTables}.

Fixpoint parseIdent_loop (fuel : nat) (id : string) (t : Tokenizer) : parsed string :=
  match fuel with
  | O => ((id, None), t)
  | S n =>
    let '((tk, err), t) := Peek t in
    match err with
    | Some e => ((""%string, Some e), t)
    | None =>
      if negb (unicode.IsLetter (Lexeme tk)) && negb (unicode.IsDigit (Lexeme tk))
      then ((id, None), t)
      else parseIdent_loop n (id +:+ utf8.string_of_rune (Lexeme tk)) (snd (Next t))
    end
  end.

Definition parseIdent (t : Tokenizer) : parsed string :=
  let '((tk, err), t) := Next t in
  match err with
  | Some e => ((""%string, Some e), t)
  | None => parseIdent_loop (S (pending t)) (utf8.string_of_rune (Lexeme tk)) t
  end.

Definition parseReceiver (t : Tokenizer) : parsed string :=
  let t := snd (Next t) in (* We know it's '(' *)
  let t := SkipWhite t in
  let '(err, t) := expect 0x2A t in
  match err with
  | Some e => ((""%string, Some e), t)
  | None =>
    let t := SkipWhite t in
    let '((id, err), t) := parseIdent t in
    match err with
    | Some e => ((""%string, Some e), t)
    | None =>
      let t := SkipWhite t in
      let '(err, t) := expect 0x29 t in
      match err with
      | Some e => ((""%string, Some e), t)
      | None => (("(*" +:+ id +:+ ")", None), t)
      end
    end
  end.

Definition parseName (t : Tokenizer) : parsed string :=
  let '((tk, err), t) := Peek t in
  match err with
  | Some e => ((""%string, Some e), t)
  | None =>
    if Lexeme tk =? 0x28 then parseReceiver t
    else if (Lexeme tk =? 0x5F) || unicode.IsLetter (Lexeme tk) then parseIdent t
    else ((""%string, Some (NewUnexpectedTokenError tk)), t)
  end.

Fixpoint parseType_loop (fuel : nat) (typ : string) (t : Tokenizer) : parsed string :=
  match fuel with
  | O => ((typ, None), t)
  | S n =>
    let '((tk, err), t) := Peek t in
    if negb (is_nil err) && negb (is_io_EOF err) then ((""%string, err), t)
    else if (Lexeme tk =? 0x0A) || (Lexeme tk =? 0x3B) || is_io_EOF err
    then ((strings.TrimSpace typ, None), t)
    else parseType_loop n (typ +:+ utf8.string_of_rune (Lexeme tk)) (snd (Next t))
  end.

Definition parseType (t : Tokenizer) : parsed string :=
  let '((tk, err), t) := Next t in
  match err with
  | Some e => ((""%string, Some e), t)
  | None =>
    if (Lexeme tk =? 0x7B) || (Lexeme tk =? 0x0A) || (Lexeme tk =? 0x3B)
    then ((""%string, Some (NewUnexpectedTokenError tk)), t)
    else parseType_loop (S (pending t)) (utf8.string_of_rune (Lexeme tk)) t
  end.

(** The key an Item gives to the entry [subItem] of its Def. *)
Definition item_key (name subItem : string) : string :=
  if String.eqb subItem "" then name else name +:+ "." +:+ subItem.

(** The loop [for subItem, subDef := range def { ... ret[k] = subDef }]. *)
Definition prefix_keys (name : string) (def : smap) : smap :=
  map_fold (fun subItem subDef ret => <[item_key name subItem := subDef]> ret) ∅ def.

(** The loop [for k, v := range itemAnns { anns[k] = v }]. *)
Definition merge_into (anns itemAnns : smap) : smap :=
  map_fold (fun k v anns => <[k := v]> anns) anns itemAnns.

(** The entries of a Go map, none for the nil map. *)
Definition entries (m : option smap) : smap := default ∅ m.

(** [parseDef] and [parseItem] call [parseList] back for a nested block:
    [None] is the call that ran out of fuel. *)
Section Item.

Variable parseList : Tokenizer -> option (parsed (option smap)).

Definition parseDef (t : Tokenizer) : option (parsed (option smap)) :=
  let '((tk, err), t) := Peek t in
  match err with
  | Some e => Some ((None, Some e), t)
  | None =>
    if Lexeme tk =? 0x7B then
      let t := snd (Next t) in
      let t := SkipWhite t in
      match parseList t with
      | None => None
      | Some ((anns, err), t) =>
        match err with
        | Some e => Some ((None, Some e), t)
        | None =>
          let t := SkipWhite t in
          let '(err, t) := expect 0x7D t in
          match err with
          | Some e => Some ((None, Some e), t)
          | None => Some ((anns, None), t)
          end
        end
      end
    else
      let '((typ, err), t) := parseType t in
      match err with
      | Some e => Some ((None, Some e), t)
      | None => Some ((Some {[ ""%string := typ ]}, None), t)
      end
  end.

Definition parseItem (t : Tokenizer) : option (parsed (option smap)) :=
  let '((name, err), t) := parseName t in
  match err with
  | Some e => Some ((None, Some e), t)
  | None =>
    let t := SkipWhiteUntilLine t in
    match parseDef t with
    | None => None
    | Some ((def, err), t) =>
      match err with
      | Some e => Some ((None, Some e), t)
      | None =>
        let t := SkipWhiteUntilLine t in
        let '((tk, err), t) := Next t in
        if negb (is_nil err) && negb (is_io_EOF err) then Some ((None, err), t)
        else if negb (is_io_EOF err) && negb (Lexeme tk =? 0x3B) && negb (Lexeme tk =? 0x0A)
        then Some ((None, Some (NewUnexpectedTokenError tk)), t)
        else Some ((Some (prefix_keys name (entries def)), None), t)
      end
    end
  end.

End Item.

(** The loop of [parseList], [anns] being the map built so far.  Every
    turn that goes on consumes a token, and so does every nested block:
    [pending] tokens of fuel, and one more, are enough
    (theorem [parseList_loop_total]). *)
Fixpoint parseList_loop (fuel : nat) (anns : smap) (t : Tokenizer)
  : option (parsed (option smap)) :=
  match fuel with
  | O => None
  | S n =>
    let t := SkipWhite t in
    let '((tk, err), t) := Peek t in
    if negb (is_nil err) && negb (is_io_EOF err) then Some ((None, err), t)
    else if is_io_EOF err
            || (negb (Lexeme tk =? 0x28) && negb (Lexeme tk =? 0x5F)
                && negb (unicode.IsLetter (Lexeme tk)))
    then Some ((Some anns, None), t)
    else
      match parseItem (parseList_loop n ∅) t with
      | None => None
      | Some ((itemAnns, err), t) =>
        match err with
        | Some e =>
          if is_io_EOF (Some e) then Some ((None, Some EOF), t)
          else Some ((None, Some e), t)
        | None => parseList_loop n (merge_into anns (entries itemAnns)) t
        end
      end
  end.

Definition parseList (t : Tokenizer) : option (parsed (option smap)) :=
  parseList_loop (S (pending t)) ∅ t.

(** [Parse] without the wrapping of the map into an [Annotation]
    ([NewAnnotation] is declared outside this file): the map and the error
    that [parseList] returns on a fresh tokenizer. *)
Definition Parse (s : string) : option (option smap * option error) :=
  match parseList (NewTokenizer s) with
  | Some (r, _) => Some r
  | None => None
  end.

End Grammar.

(** * Properties *)

(** ** Decoding *)

Lemma len_nonneg s : 0 <= len s.
Proof. unfold len. lia. Qed.

Lemma len_String c s : len (String c s) = len s + 1.
Proof. unfold len. simpl String.length. lia. Qed.

Lemma string_from_len n s :
  (n <= String.length s)%nat ->
  len (string_from n s) = len s - Z.of_nat n.
Proof.
  revert s. induction n as [|n IH]; intros s Hn.
  - simpl. lia.
  - destruct s as [|c s]; simpl in Hn; [lia|].
    simpl string_from. rewrite IH by lia. rewrite len_String. lia.
Qed.

Ltac split_ifs :=
  repeat match goal with
  | H : context [if ?b then _ else _] |- _ => destruct b eqn:?
  | H : context [match ?s with EmptyString => _ | String _ _ => _ end] |- _ =>
      destruct s eqn:?
  end.

(** A non-empty string always decodes to a rune of width 1 to 4 that lies
    within the string. *)
Lemma DecodeRuneInString_size s r size :
  s <> EmptyString ->
  utf8.DecodeRuneInString s = (r, size) ->
  1 <= size <= len s /\ size <= 4.
Proof.
  intros Hs Hd. destruct s as [|c0 s]; [congruence|].
  unfold utf8.DecodeRuneInString in Hd.
  split_ifs; inversion Hd; subst; rewrite ?len_String;
    repeat match goal with |- context [len ?x] => pose proof (len_nonneg x); generalize dependent (len x); intros end;
    lia.
Qed.

(** The encoding EF BF BD of U+FFFD decodes, well-formed as it is, to the
    rune [RuneError] with width 3. *)
Lemma DecodeRuneInString_FFFD rest :
  utf8.DecodeRuneInString
    (String (byte_of 0xEF) (String (byte_of 0xBF) (String (byte_of 0xBD) rest)))
  = (utf8.RuneError, 3).
Proof.
  unfold utf8.DecodeRuneInString.
  change (byte_val (byte_of 0xEF)) with 0xEF.
  change (byte_val (byte_of 0xBF)) with 0xBF.
  change (byte_val (byte_of 0xBD)) with 0xBD.
  change (utf8.first 0xEF) with utf8.s3.
  change (utf8.as_ <=? utf8.s3) with false.
  change (Z.land utf8.s3 7) with 3.
  cbv iota.
  destruct (len _ <? 3) eqn:Hl.
  - rewrite !len_String in Hl. pose proof (len_nonneg rest). lia.
  - reflexivity.
Qed.

(** ** One step of the tokenizer *)

(** The token [Peek] builds when the lookahead slot is empty. *)
Definition fresh_token (t : Tokenizer) (r size : Z) : Token :=
  mkToken r (line t) (col t) size (bytePos t) (runePos t).

Definition rest_of (t : Tokenizer) : string :=
  string_from (Z.to_nat (bytePos t)) (src t).

Inductive Peek_spec (t : Tokenizer) : (Token * option error) * Tokenizer -> Prop :=
| Peek_cached :
    0 < Size (lookahead t) ->
    Peek_spec t ((lookahead t, None), t)
| Peek_eof :
    Size (lookahead t) <= 0 -> len (src t) <= bytePos t ->
    Peek_spec t ((Token0, Some io_EOF), t)
| Peek_bad size :
    Size (lookahead t) <= 0 -> bytePos t < len (src t) ->
    utf8.DecodeRuneInString (rest_of t) = (utf8.RuneError, size) ->
    Peek_spec t ((Token0, Some (UTF8Error (line t) (col t))), t)
| Peek_fresh r size :
    Size (lookahead t) <= 0 -> bytePos t < len (src t) ->
    utf8.DecodeRuneInString (rest_of t) = (r, size) ->
    r <> utf8.RuneError ->
    1 <= size <= 4 -> size <= len (src t) - bytePos t ->
    Peek_spec t ((fresh_token t r size, None), set_lookahead t (fresh_token t r size)).

Lemma rest_of_len t :
  bytePos t < len (src t) ->
  len (rest_of t) <= len (src t) - bytePos t.
Proof.
  intros Hlt. unfold rest_of.
  assert (Hn : (Z.to_nat (bytePos t) <= String.length (src t))%nat)
    by (unfold len in Hlt; lia).
  rewrite (string_from_len _ _ Hn). lia.
Qed.

Lemma Peek_cases t : Peek_spec t (Peek t).
Proof.
  unfold Peek.
  destruct (0 <? Size (lookahead t)) eqn:Hla.
  { apply Peek_cached. lia. }
  unfold empty. destruct (len (src t) <=? bytePos t) eqn:Hem.
  { apply Peek_eof; lia. }
  fold (rest_of t).
  destruct (utf8.DecodeRuneInString (rest_of t)) as [r size] eqn:Hd.
  assert (Hlt : bytePos t < len (src t)) by lia.
  pose proof (rest_of_len t Hlt) as Hlen.
  destruct (r =? utf8.RuneError) eqn:Hr.
  - apply Z.eqb_eq in Hr. subst r. eapply Peek_bad; eauto; lia.
  - apply Z.eqb_neq in Hr.
    assert (Hne : rest_of t <> EmptyString).
    { intros He. rewrite He in Hd. simpl in Hd. congruence. }
    destruct (DecodeRuneInString_size _ _ _ Hne Hd) as [Hsz Hsz4].
    apply Peek_fresh; auto; lia.
Qed.

(** The tokenizer after [Next] has consumed the token [tk]. *)
Definition advance (t : Tokenizer) (tk : Token) : Tokenizer :=
  if Lexeme tk =? 0x0A
  then mkTokenizer (src t) (bytePos t + Size tk) (runePos t + 1) (runePos t + 1)
                   (line t + 1) Token0
  else mkTokenizer (src t) (bytePos t + Size tk) (runePos t + 1) (lastLinePos t)
                   (line t) Token0.

(** The position counters of a tokenizer. *)
Definition counters (t : Tokenizer) : Z * Z * Z * Z :=
  (line t, col t, bytePos t, runePos t).

Lemma Peek_ok t tk t1 :
  Peek t = ((tk, None), t1) ->
  0 < Size tk /\ t1 = set_lookahead t tk /\ lookahead t1 = tk.
Proof.
  intros HP. pose proof (Peek_cases t) as Hc. rewrite HP in Hc.
  inversion Hc; subst.
  - repeat split; auto. destruct t1; reflexivity.
  - simpl. repeat split; auto. lia.
Qed.

Lemma Peek_err t tk e t1 :
  Peek t = ((tk, Some e), t1) -> tk = Token0 /\ t1 = t.
Proof.
  intros HP. pose proof (Peek_cases t) as Hc. rewrite HP in Hc.
  inversion Hc; subst; auto.
Qed.

Lemma Peek_counters t : counters (snd (Peek t)) = counters t.
Proof.
  pose proof (Peek_cases t) as Hc. inversion Hc; simpl; reflexivity.
Qed.

Lemma Peek_src t : src (snd (Peek t)) = src t.
Proof.
  pose proof (Peek_cases t) as Hc. inversion Hc; simpl; reflexivity.
Qed.

Lemma Peek_Peek t : Peek (snd (Peek t)) = Peek t.
Proof.
  destruct (Peek t) as [[tk [e|]] t1] eqn:HP; simpl.
  - destruct (Peek_err _ _ _ _ HP) as [-> ->]. assumption.
  - apply Peek_ok in HP as (Hsz & -> & Hla).
    unfold Peek. simpl lookahead.
    destruct (0 <? Size tk) eqn:Hs; [reflexivity | lia].
Qed.

Lemma Next_ok t tk t1 :
  Peek t = ((tk, None), t1) -> Next t = ((tk, None), advance t tk).
Proof.
  intros HP. unfold Next. rewrite HP.
  apply Peek_ok in HP as (Hsz & -> & Hla).
  simpl lookahead.
  assert (Hs : (0 <? Size tk) = true) by lia. rewrite Hs.
  unfold advance. destruct (Lexeme tk =? 10); reflexivity.
Qed.

Lemma Next_err t tk e t1 :
  Peek t = ((tk, Some e), t1) -> Next t = ((Token0, Some e), t).
Proof.
  intros HP. unfold Next. rewrite HP.
  apply Peek_err in HP as [_ ->]. reflexivity.
Qed.

Lemma Next_inv_ok t tk t1 :
  Next t = ((tk, None), t1) ->
  Peek t = ((tk, None), set_lookahead t tk) /\ t1 = advance t tk.
Proof.
  intros HN. destruct (Peek t) as [[tk' [e|]] t'] eqn:HP.
  - rewrite (Next_err _ _ _ _ HP) in HN. discriminate.
  - rewrite (Next_ok _ _ _ HP) in HN. inversion HN; subst.
    apply Peek_ok in HP as (_ & -> & _). auto.
Qed.

Lemma Next_after_Peek t : Next (snd (Peek t)) = Next t.
Proof. unfold Next. rewrite Peek_Peek. destruct (Peek t) as [[tk e] t1]. reflexivity. Qed.

(** ** [pending] is a measure of the loops *)

Lemma pending_Peek t : (pending (snd (Peek t)) <= pending t)%nat.
Proof.
  pose proof (Peek_cases t) as Hc. inversion Hc; simpl snd; try lia.
  unfold pending. simpl.
  assert (Hs : (0 <? size) = true) by lia. rewrite Hs.
  assert (Hl : (0 <? Size (lookahead t)) = false) by lia. rewrite Hl.
  lia.
Qed.

Lemma pending_advance t tk t1 :
  Peek t = ((tk, None), t1) -> (pending (advance t tk) < pending t)%nat.
Proof.
  intros HP. pose proof (Peek_cases t) as Hc. rewrite HP in Hc.
  assert (Ha : pending (advance t tk) = Z.to_nat (len (src t) - (bytePos t + Size tk))).
  { unfold advance, pending. destruct (Lexeme tk =? 10); reflexivity. }
  rewrite Ha. unfold pending.
  inversion Hc; subst t1 tk.
  - assert (Hs : (0 <? Size (lookahead t)) = true) by lia. rewrite Hs. lia.
  - assert (Hl : (0 <? Size (lookahead t)) = false) by lia. rewrite Hl.
    simpl Size. lia.
Qed.

Lemma pending_Next t : (pending (snd (Next t)) <= pending t)%nat.
Proof.
  destruct (Peek t) as [[tk [e|]] t1] eqn:HP.
  - rewrite (Next_err _ _ _ _ HP). simpl. lia.
  - rewrite (Next_ok _ _ _ HP). simpl.
    pose proof (pending_advance _ _ _ HP). lia.
Qed.

Lemma pending_Next_ok t tk t1 :
  Next t = ((tk, None), t1) -> (pending t1 < pending t)%nat.
Proof.
  intros HN. apply Next_inv_ok in HN as [HP ->].
  eapply pending_advance; eauto.
Qed.

Lemma pending_Next_Peek t tk t1 :
  Peek t = ((tk, None), t1) -> (pending (snd (Next t1)) < pending t)%nat.
Proof.
  intros HP. replace t1 with (snd (Peek t)) by (rewrite HP; reflexivity).
  rewrite Next_after_Peek, (Next_ok _ _ _ HP). simpl.
  eapply pending_advance; eauto.
Qed.

Lemma is_nil_true e : is_nil e = true -> e = None.
Proof. destruct e; simpl; congruence. Qed.

(** ** The loops have fuel enough: their unfolding equations *)

Lemma SkipWhite_loop_fuel n m t :
  (pending t < n)%nat -> (pending t < m)%nat ->
  SkipWhite_loop n t = SkipWhite_loop m t.
Proof.
  revert m t. induction n as [|n IH]; intros m t Hn Hm; [lia|].
  destruct m as [|m]; [lia|]. simpl.
  destruct (Peek t) as [[tk err] t1] eqn:HP.
  destruct (negb (is_nil err) || negb (unicode.IsSpace (Lexeme tk))) eqn:Hstop; [reflexivity|].
  apply orb_false_iff in Hstop as [Hnil _].
  apply negb_false_iff, is_nil_true in Hnil. subst err.
  pose proof (pending_Next_Peek _ _ _ HP). apply IH; lia.
Qed.

Lemma SkipWhite_eq t :
  SkipWhite t =
  let '((tk, err), t1) := Peek t in
  if negb (is_nil err) || negb (unicode.IsSpace (Lexeme tk)) then t1
  else SkipWhite (snd (Next t1)).
Proof.
  unfold SkipWhite at 1. simpl.
  destruct (Peek t) as [[tk err] t1] eqn:HP.
  destruct (negb (is_nil err) || negb (unicode.IsSpace (Lexeme tk))) eqn:Hstop; [reflexivity|].
  apply orb_false_iff in Hstop as [Hnil _].
  apply negb_false_iff, is_nil_true in Hnil. subst err.
  pose proof (pending_Next_Peek _ _ _ HP).
  apply SkipWhite_loop_fuel; lia.
Qed.

Lemma SkipWhiteUntilLine_loop_fuel n m t :
  (pending t < n)%nat -> (pending t < m)%nat ->
  SkipWhiteUntilLine_loop n t = SkipWhiteUntilLine_loop m t.
Proof.
  revert m t. induction n as [|n IH]; intros m t Hn Hm; [lia|].
  destruct m as [|m]; [lia|]. simpl.
  destruct (Peek t) as [[tk err] t1] eqn:HP.
  destruct (negb (is_nil err) || (Lexeme tk =? 10) || negb (unicode.IsSpace (Lexeme tk)))
    eqn:Hstop; [reflexivity|].
  apply orb_false_iff in Hstop as [Hstop _].
  apply orb_false_iff in Hstop as [Hnil _].
  apply negb_false_iff, is_nil_true in Hnil. subst err.
  pose proof (pending_Next_Peek _ _ _ HP). apply IH; lia.
Qed.

Lemma SkipWhiteUntilLine_eq t :
  SkipWhiteUntilLine t =
  let '((tk, err), t1) := Peek t in
  if negb (is_nil err) || (Lexeme tk =? 0x0A) || negb (unicode.IsSpace (Lexeme tk)) then t1
  else SkipWhiteUntilLine (snd (Next t1)).
Proof.
  unfold SkipWhiteUntilLine at 1. simpl.
  destruct (Peek t) as [[tk err] t1] eqn:HP.
  destruct (negb (is_nil err) || (Lexeme tk =? 10) || negb (unicode.IsSpace (Lexeme tk)))
    eqn:Hstop; [reflexivity|].
  apply orb_false_iff in Hstop as [Hstop _].
  apply orb_false_iff in Hstop as [Hnil _].
  apply negb_false_iff, is_nil_true in Hnil. subst err.
  pose proof (pending_Next_Peek _ _ _ HP).
  apply SkipWhiteUntilLine_loop_fuel; lia.
Qed.

(** Neither loop hands tokens back: [pending] does not grow. *)
Lemma pending_SkipWhite_loop n t : (pending (SkipWhite_loop n t) <= pending t)%nat.
Proof.
  revert t. induction n as [|n IH]; intros t; simpl; [lia|].
  pose proof (pending_Peek t) as HPk.
  destruct (Peek t) as [[tk err] t1] eqn:HP. simpl in HPk.
  destruct (negb (is_nil err) || negb (unicode.IsSpace (Lexeme tk))); [lia|].
  pose proof (IH (snd (Next t1))). pose proof (pending_Next t1). lia.
Qed.

Lemma pending_SkipWhite t : (pending (SkipWhite t) <= pending t)%nat.
Proof. apply pending_SkipWhite_loop. Qed.

Lemma pending_SkipWhiteUntilLine_loop n t :
  (pending (SkipWhiteUntilLine_loop n t) <= pending t)%nat.
Proof.
  revert t. induction n as [|n IH]; intros t; simpl; [lia|].
  pose proof (pending_Peek t) as HPk.
  destruct (Peek t) as [[tk err] t1] eqn:HP. simpl in HPk.
  destruct (negb (is_nil err) || (Lexeme tk =? 10) || negb (unicode.IsSpace (Lexeme tk))); [lia|].
  pose proof (IH (snd (Next t1))). pose proof (pending_Next t1). lia.
Qed.

Lemma pending_SkipWhiteUntilLine t : (pending (SkipWhiteUntilLine t) <= pending t)%nat.
Proof. apply pending_SkipWhiteUntilLine_loop. Qed.

(** ** The states the program builds *)

(** A tokenizer is only ever made by [NewTokenizer] and changed by [Peek]
    and [Next] (the fields are unexported). *)
Inductive reachable (s : string) : Tokenizer -> Prop :=
| reach_new : reachable s (NewTokenizer s)
| reach_Peek t : reachable s t -> reachable s (snd (Peek t))
| reach_Next t : reachable s t -> reachable s (snd (Next t)).

Record tok_inv (s : string) (t : Tokenizer) : Prop := {
  inv_src : src t = s;
  inv_bytePos : 0 <= bytePos t <= len s;
  inv_runePos : 0 <= lastLinePos t <= runePos t /\ runePos t <= bytePos t;
  inv_line : 1 <= line t <= runePos t + 1;
  inv_lookahead :
    0 < Size (lookahead t) ->
    exists r, lookahead t = fresh_token t r (Size (lookahead t))
              /\ bytePos t + Size (lookahead t) <= len s
}.

Lemma tok_inv_Peek s t : tok_inv s t -> tok_inv s (snd (Peek t)).
Proof.
  intros [Hs Hb Hr Hl Hla].
  pose proof (Peek_cases t) as Hc. inversion Hc; simpl snd;
    try (constructor; assumption).
  constructor; simpl; auto.
  intros _. exists r. split; [reflexivity | rewrite <- Hs; lia].
Qed.

Lemma tok_inv_advance s t tk t1 :
  tok_inv s t -> Peek t = ((tk, None), t1) -> tok_inv s (advance t tk).
Proof.
  intros Hinv HP.
  destruct (Peek_ok _ _ _ HP) as (Hsz & -> & _).
  pose proof (tok_inv_Peek _ _ Hinv) as [Hs Hb Hr Hl Hla].
  rewrite HP in *. simpl in *.
  destruct (Hla Hsz) as (r & _ & Hfit).
  unfold advance. destruct (Lexeme tk =? 10); constructor; simpl; auto; lia.
Qed.

Lemma tok_inv_Next s t : tok_inv s t -> tok_inv s (snd (Next t)).
Proof.
  intros Hinv. destruct (Peek t) as [[tk [e|]] t1] eqn:HP.
  - rewrite (Next_err _ _ _ _ HP). assumption.
  - rewrite (Next_ok _ _ _ HP). eapply tok_inv_advance; eauto.
Qed.

(** On every state the program builds the counters lie within the source
    and a cached token is the token of the current position. *)
Lemma reachable_inv s t : reachable s t -> tok_inv s t.
Proof.
  induction 1.
  - pose proof (len_nonneg s).
    constructor; simpl; try reflexivity; lia.
  - apply tok_inv_Peek; assumption.
  - apply tok_inv_Next; assumption.
Qed.

Lemma reachable_Peek_token s t tk t1 :
  reachable s t -> Peek t = ((tk, None), t1) ->
  exists r, tk = fresh_token t r (Size tk).
Proof.
  intros Hr HP. apply reachable_inv in Hr as [_ _ _ _ Hla].
  pose proof (Peek_cases t) as Hc. rewrite HP in Hc.
  inversion Hc; subst t1 tk.
  - destruct (Hla ltac:(assumption)) as (r & Heq & _). eauto.
  - exists r. reflexivity.
Qed.

(** ** The tokenizer's claims *)

(** C8. [Peek] is idempotent and consumes nothing: a second [Peek] returns
    what the first returned and leaves the tokenizer as the first left it;
    neither changes the line, the column, the byte offset or the rune
    offset; and a [Next] straight after a [Peek] that returned a token
    returns that very token.  This holds on every tokenizer state. *)
Theorem Peek_idempotent (t : Tokenizer) :
  Peek (snd (Peek t)) = Peek t /\
  counters (snd (Peek t)) = counters t /\
  counters (snd (Peek (snd (Peek t)))) = counters t /\
  (forall tk, fst (Peek t) = (tk, None) ->
     fst (Next (snd (Peek t))) = (tk, None)).
Proof.
  repeat split.
  - apply Peek_Peek.
  - apply Peek_counters.
  - rewrite Peek_Peek. apply Peek_counters.
  - intros tk Htk. rewrite Next_after_Peek.
    destruct (Peek t) as [[tk' err] t1] eqn:HP. simpl in Htk.
    inversion Htk; subst. rewrite (Next_ok _ _ _ HP). reflexivity.
Qed.

(** C7. On the states the program builds, the token at the current
    position has column (rune offset) - (rune offset at the last line
    start) + 1.  Consuming it moves the rune offset by one and the byte
    offset by the token's width, so the next token's column is one more
    whatever that width; consuming a line feed instead adds one to the line
    counter and the next token's column is 1. *)
Theorem token_col_in_runes (s : string) (t : Tokenizer) (tk : Token) (t1 : Tokenizer) :
  reachable s t ->
  Peek t = ((tk, None), t1) ->
  Col tk = runePos t - lastLinePos t + 1 /\
  fst (Next t) = (tk, None) /\
  runePos (snd (Next t)) = runePos t + 1 /\
  bytePos (snd (Next t)) = bytePos t + Size tk /\
  (Lexeme tk = 0x0A -> line (snd (Next t)) = line t + 1) /\
  (Lexeme tk <> 0x0A -> line (snd (Next t)) = line t) /\
  (forall tk2 t2, Peek (snd (Next t)) = ((tk2, None), t2) ->
     Line tk2 = line (snd (Next t)) /\
     (Lexeme tk = 0x0A -> Col tk2 = 1) /\
     (Lexeme tk <> 0x0A -> Col tk2 = Col tk + 1)).
Proof.
  intros Hreach HP.
  destruct (reachable_Peek_token _ _ _ _ Hreach HP) as [r Htk].
  assert (HC : Col tk = col t) by (rewrite Htk; reflexivity).
  rewrite (Next_ok _ _ _ HP). simpl fst. simpl snd.
  split; [exact HC|]. split; [reflexivity|].
  assert (Hadv : lookahead (advance t tk) = Token0)
    by (unfold advance; destruct (Lexeme tk =? 10); reflexivity).
  assert (Hnext : forall tk2 t2, Peek (advance t tk) = ((tk2, None), t2) ->
            Line tk2 = line (advance t tk) /\ Col tk2 = col (advance t tk)).
  { intros tk2 t2 HP2. pose proof (Peek_cases (advance t tk)) as Hc.
    rewrite HP2 in Hc. inversion Hc; subst t2 tk2.
    - rewrite Hadv in *. simpl in *. lia.
    - split; reflexivity. }
  unfold col in *.
  destruct (Lexeme tk =? 10) eqn:Hnl.
  - apply Z.eqb_eq in Hnl.
    assert (Ha : advance t tk = mkTokenizer (src t) (bytePos t + Size tk) (runePos t + 1)
                   (runePos t + 1) (line t + 1) Token0)
      by (unfold advance; rewrite Hnl; reflexivity).
    rewrite Ha in *. simpl in *.
    repeat split; try reflexivity; try (intros; congruence).
    + apply (Hnext _ _ H).
    + intros _. destruct (Hnext _ _ H) as [_ Hc2]. lia.
  - apply Z.eqb_neq in Hnl.
    assert (Ha : advance t tk = mkTokenizer (src t) (bytePos t + Size tk) (runePos t + 1)
                   (lastLinePos t) (line t) Token0).
    { unfold advance. destruct (Lexeme tk =? 10) eqn:E; [lia | reflexivity]. }
    rewrite Ha in *. simpl in *.
    repeat split; try reflexivity; try (intros; congruence).
    + apply (Hnext _ _ H).
    + intros _. destruct (Hnext _ _ H) as [_ Hc2]. lia.
Qed.

Lemma string_from_nonempty n s :
  string_from n s <> EmptyString -> (n < String.length s)%nat.
Proof.
  revert s. induction n as [|n IH]; intros s Hne.
  - destruct s; simpl in *; [congruence | lia].
  - destruct s as [|c s]; simpl in *; [congruence|].
    specialize (IH s Hne). lia.
Qed.

(** C10. When the bytes at the position being peeked are EF BF BD, the
    well-formed encoding of U+FFFD (it decodes with width 3, where an
    invalid sequence decodes with width 1), [Peek] still returns the UTF-8
    encoding error for the current line and column: it compares the decoded
    rune with [utf8.RuneError] and never looks at the width. *)
Theorem Peek_rejects_encoded_RuneError (t : Tokenizer) (rest : string) :
  Size (lookahead t) <= 0 ->
  rest_of t = utf8.string_of_rune utf8.RuneError +:+ rest ->
  utf8.DecodeRuneInString (rest_of t) = (utf8.RuneError, 3) /\
  Peek t = ((Token0, Some (UTF8Error (line t) (col t))), t).
Proof.
  intros Hla Hrest.
  change (utf8.string_of_rune utf8.RuneError +:+ rest)
    with (String (byte_of 0xEF) (String (byte_of 0xBF) (String (byte_of 0xBD) rest)))
    in Hrest.
  assert (Hd : utf8.DecodeRuneInString (rest_of t) = (utf8.RuneError, 3))
    by (rewrite Hrest; apply DecodeRuneInString_FFFD).
  split; [exact Hd|].
  assert (Hlt : bytePos t < len (src t)).
  { assert (Hne : rest_of t <> EmptyString) by (rewrite Hrest; discriminate).
    apply string_from_nonempty in Hne. unfold len. lia. }
  unfold Peek.
  assert (H1 : (0 <? Size (lookahead t)) = false) by lia. rewrite H1.
  unfold empty.
  assert (H2 : (len (src t) <=? bytePos t) = false) by lia. rewrite H2.
  fold (rest_of t). rewrite Hd. reflexivity.
Qed.

Lemma Peek_rejects_encoded_RuneError_witness :
  let t := NewTokenizer (utf8.string_of_rune utf8.RuneError +:+ "x") in
  utf8.DecodeRuneInString (rest_of t) = (utf8.RuneError, 3) /\
  Peek t = ((Token0, Some (UTF8Error 1 1)), t).
Proof.
  apply (Peek_rejects_encoded_RuneError
           (NewTokenizer (utf8.string_of_rune utf8.RuneError +:+ "x")) "x").
  - simpl. lia.
  - reflexivity.
Defined.

(** ** The grammar functions consume tokens *)

(** [r], returned from the state [t], left no more tokens pending than
    there were, and fewer when it carries no error. *)
Definition shrinks {A : Type} (t : Tokenizer) (r : parsed A) : Prop :=
  (pending (snd r) <= pending t)%nat /\
  (snd (fst r) = None -> (pending (snd r) < pending t)%nat).

Lemma shrinks_weaken {A : Type} (t u : Tokenizer) (r : parsed A) :
  (pending u <= pending t)%nat -> shrinks u r -> shrinks t r.
Proof. intros Hle [H1 H2]. split; [lia|]. intros He. specialize (H2 He). lia. Qed.

Lemma Next_shrinks t : shrinks t (Next t).
Proof.
  split; [apply pending_Next|].
  destruct (Next t) as [[tk err] t1] eqn:HN. simpl. intros ->.
  eapply pending_Next_ok; eauto.
Qed.

Lemma expect_shrinks r t :
  (pending (snd (expect r t)) <= pending t)%nat /\
  (fst (expect r t) = None -> (pending (snd (expect r t)) < pending t)%nat).
Proof.
  unfold expect. pose proof (Next_shrinks t) as [Hle Hlt].
  destruct (Next t) as [[tk [e|]] t1]; cbn [fst snd] in *.
  - split; [lia | discriminate].
  - specialize (Hlt eq_refl).
    destruct (negb (Lexeme tk =? r)); cbn [fst snd]; split; intros; try lia; discriminate.
Qed.

Section GrammarFacts.

Context `{UnicodeTables}.

Lemma pending_parseIdent_loop n id t :
  (pending (snd (parseIdent_loop n id t)) <= pending t)%nat.
Proof.
  revert id t. induction n as [|n IH]; intros id t; simpl; [lia|].
  pose proof (pending_Peek t) as HPk.
  destruct (Peek t) as [[tk [e|]] t1]; cbn [fst snd] in *; [lia|].
  destruct (negb (unicode.IsLetter (Lexeme tk)) && negb (unicode.IsDigit (Lexeme tk)));
    simpl; [lia|].
  pose proof (IH (id +:+ utf8.string_of_rune (Lexeme tk)) (snd (Next t1))).
  pose proof (pending_Next t1). lia.
Qed.

Lemma parseIdent_shrinks t : shrinks t (parseIdent t).
Proof.
  unfold parseIdent. pose proof (Next_shrinks t) as [Hle Hlt].
  destruct (Next t) as [[tk [e|]] t1]; cbn [fst snd] in *.
  - split; cbn [fst snd]; [lia | discriminate].
  - specialize (Hlt eq_refl).
    pose proof (pending_parseIdent_loop (S (pending t1)) (utf8.string_of_rune (Lexeme tk)) t1).
    split; intros; lia.
Qed.

Lemma pending_parseType_loop n typ t :
  (pending (snd (parseType_loop n typ t)) <= pending t)%nat.
Proof.
  revert typ t. induction n as [|n IH]; intros typ t; simpl; [lia|].
  pose proof (pending_Peek t) as HPk.
  destruct (Peek t) as [[tk err] t1]; cbn [fst snd] in *.
  destruct (negb (is_nil err) && negb (is_io_EOF err)); simpl; [lia|].
  destruct ((Lexeme tk =? 10) || (Lexeme tk =? 59) || is_io_EOF err); simpl; [lia|].
  pose proof (IH (typ +:+ utf8.string_of_rune (Lexeme tk)) (snd (Next t1))).
  pose proof (pending_Next t1). lia.
Qed.

Lemma parseType_shrinks t : shrinks t (parseType t).
Proof.
  unfold parseType. pose proof (Next_shrinks t) as [Hle Hlt].
  destruct (Next t) as [[tk [e|]] t1]; cbn [fst snd] in *.
  - split; cbn [fst snd]; [lia | discriminate].
  - specialize (Hlt eq_refl).
    destruct ((Lexeme tk =? 123) || (Lexeme tk =? 10) || (Lexeme tk =? 59)).
    + split; cbn [fst snd]; [lia | discriminate].
    + pose proof (pending_parseType_loop (S (pending t1)) (utf8.string_of_rune (Lexeme tk)) t1).
      split; intros; lia.
Qed.

Lemma parseReceiver_shrinks t : shrinks t (parseReceiver t).
Proof.
  unfold parseReceiver.
  pose proof (pending_Next t) as H0.
  pose proof (pending_SkipWhite (snd (Next t))) as H1.
  pose proof (expect_shrinks 42 (SkipWhite (snd (Next t)))) as [H2 H2'].
  destruct (expect 42 (SkipWhite (snd (Next t)))) as [[e|] t1]; cbn [fst snd] in *.
  { split; cbn [fst snd]; [lia | discriminate]. }
  specialize (H2' eq_refl).
  pose proof (pending_SkipWhite t1) as H3.
  pose proof (parseIdent_shrinks (SkipWhite t1)) as [H4 _].
  destruct (parseIdent (SkipWhite t1)) as [[id [e|]] t2]; cbn [fst snd] in *.
  { split; cbn [fst snd]; [lia | discriminate]. }
  pose proof (pending_SkipWhite t2) as H5.
  pose proof (expect_shrinks 41 (SkipWhite t2)) as [H6 _].
  destruct (expect 41 (SkipWhite t2)) as [[e|] t3]; cbn [fst snd] in *;
    split; cbn [fst snd]; intros; try lia; discriminate.
Qed.

Lemma parseName_shrinks t : shrinks t (parseName t).
Proof.
  unfold parseName. pose proof (pending_Peek t) as HPk.
  destruct (Peek t) as [[tk [e|]] t1]; cbn [fst snd] in *.
  { split; cbn [fst snd]; [lia | discriminate]. }
  destruct (Lexeme tk =? 40).
  { eapply shrinks_weaken; [exact HPk | apply parseReceiver_shrinks]. }
  destruct ((Lexeme tk =? 95) || unicode.IsLetter (Lexeme tk)).
  { eapply shrinks_weaken; [exact HPk | apply parseIdent_shrinks]. }
  split; cbn [fst snd]; [lia | discriminate].
Qed.

End GrammarFacts.

(** ** Nested blocks: how [parseDef] and [parseItem] use [parseList] *)

Section ItemFacts.

Context `{UnicodeTables}.

Abbreviation listParser := (Tokenizer -> option (parsed (option smap))).

(** What [parseDef] does with the result of the nested [parseList]. *)
Definition parseDef_close (r : parsed (option smap)) : parsed (option smap) :=
  let '((anns, err), t) := r in
  match err with
  | Some e => ((None, Some e), t)
  | None =>
    let t := SkipWhite t in
    let '(err, t) := expect 0x7D t in
    match err with
    | Some e => ((None, Some e), t)
    | None => ((anns, None), t)
    end
  end.

(** What [parseItem] does with the result of [parseDef]. *)
Definition parseItem_close (name : string) (r : parsed (option smap)) : parsed (option smap) :=
  let '((def, err), t) := r in
  match err with
  | Some e => ((None, Some e), t)
  | None =>
    let t := SkipWhiteUntilLine t in
    let '((tk, err), t) := Next t in
    if negb (is_nil err) && negb (is_io_EOF err) then ((None, err), t)
    else if negb (is_io_EOF err) && negb (Lexeme tk =? 0x3B) && negb (Lexeme tk =? 0x0A)
    then ((None, Some (NewUnexpectedTokenError tk)), t)
    else ((Some (prefix_keys name (entries def)), None), t)
  end.

Lemma pending_parseDef_close r :
  (pending (snd (parseDef_close r)) <= pending (snd r))%nat.
Proof.
  destruct r as [[anns [e|]] t]; cbn [parseDef_close fst snd]; [lia|].
  pose proof (pending_SkipWhite t).
  pose proof (expect_shrinks 125 (SkipWhite t)) as [Hle _].
  destruct (expect 125 (SkipWhite t)) as [[e|] t1]; cbn [fst snd] in *; lia.
Qed.

Lemma pending_parseItem_close name r :
  (pending (snd (parseItem_close name r)) <= pending (snd r))%nat.
Proof.
  destruct r as [[def [e|]] t]; cbn [parseItem_close fst snd]; [lia|].
  pose proof (pending_SkipWhiteUntilLine t).
  pose proof (pending_Next (SkipWhiteUntilLine t)).
  destruct (Next (SkipWhiteUntilLine t)) as [[tk err] t1]; cbn [fst snd] in *.
  destruct (negb (is_nil err) && negb (is_io_EOF err)); cbn [snd]; [lia|].
  destruct (negb (is_io_EOF err) && negb (Lexeme tk =? 59) && negb (Lexeme tk =? 10));
    cbn [snd]; lia.
Qed.

(** A function of the nested list parser that either does not call it, or
    calls it once, on a state [u] with fewer tokens pending, and hands the
    result to [k]. *)
Inductive calls_once (t : Tokenizer) (f : listParser -> option (parsed (option smap))) : Prop :=
| no_call r :
    shrinks t r ->
    (forall pl, f pl = Some r) ->
    calls_once t f
| one_call u k :
    (pending u < pending t)%nat ->
    (forall r, (pending (snd (k r)) <= pending (snd r))%nat) ->
    (forall pl, f pl = match pl u with Some r => Some (k r) | None => None end) ->
    calls_once t f.

Lemma parseDef_calls_once t : calls_once t (fun pl => parseDef pl t).
Proof.
  destruct (Peek t) as [[tk [e|]] t1] eqn:HP.
  - apply no_call with (r := ((None, Some e), t1)).
    + pose proof (pending_Peek t) as HPk. rewrite HP in HPk.
      split; cbn [fst snd] in *; [lia | discriminate].
    + intros pl. unfold parseDef. rewrite HP. reflexivity.
  - destruct (Lexeme tk =? 123) eqn:Hbrace.
    + apply one_call with (u := SkipWhite (snd (Next t1))) (k := parseDef_close).
      * pose proof (pending_Next_Peek _ _ _ HP).
        pose proof (pending_SkipWhite (snd (Next t1))). lia.
      * apply pending_parseDef_close.
      * intros pl. unfold parseDef. rewrite HP, Hbrace.
        destruct (pl (SkipWhite (snd (Next t1)))) as [[[anns [e|]] t2]|];
          cbn [parseDef_close]; try reflexivity.
        destruct (expect 125 (SkipWhite t2)) as [[e|] t3]; reflexivity.
    + pose proof (pending_Peek t) as HPk. rewrite HP in HPk. cbn [snd] in HPk.
      pose proof (parseType_shrinks t1) as HT.
      destruct (parseType t1) as [[typ [e|]] t2] eqn:HTy.
      * apply no_call with (r := ((None, Some e), t2)).
        -- destruct HT as [HT _]. split; cbn [fst snd] in *; [lia | discriminate].
        -- intros pl. unfold parseDef. rewrite HP, Hbrace, HTy. reflexivity.
      * apply no_call with (r := ((Some {[ ""%string := typ ]}, None), t2)).
        -- destruct HT as [HT1 HT2]. specialize (HT2 eq_refl).
           split; cbn [fst snd] in *; intros; lia.
        -- intros pl. unfold parseDef. rewrite HP, Hbrace, HTy. reflexivity.
Qed.

Lemma parseItem_as_close pl t :
  parseItem pl t =
  let '((name, err), t1) := parseName t in
  match err with
  | Some e => Some ((None, Some e), t1)
  | None =>
    match parseDef pl (SkipWhiteUntilLine t1) with
    | None => None
    | Some r => Some (parseItem_close name r)
    end
  end.
Proof.
  unfold parseItem. destruct (parseName t) as [[name [e|]] t1]; [reflexivity|].
  destruct (parseDef pl (SkipWhiteUntilLine t1)) as [[[def [e|]] t2]|];
    cbn [parseItem_close]; try reflexivity.
  destruct (Next (SkipWhiteUntilLine t2)) as [[tk err] t3].
  destruct (negb (is_nil err) && negb (is_io_EOF err)); [reflexivity|].
  destruct (negb (is_io_EOF err) && negb (Lexeme tk =? 59) && negb (Lexeme tk =? 10));
    reflexivity.
Qed.

Lemma parseItem_calls_once t : calls_once t (fun pl => parseItem pl t).
Proof.
  pose proof (parseName_shrinks t) as HN.
  destruct (parseName t) as [[name [e|]] t1] eqn:HNm.
  - apply no_call with (r := ((None, Some e), t1)).
    + destruct HN as [HN _]. split; cbn [fst snd] in *; [lia | discriminate].
    + intros pl. rewrite parseItem_as_close, HNm. reflexivity.
  - destruct HN as [_ HN]. specialize (HN eq_refl). cbn [snd] in HN.
    pose proof (pending_SkipWhiteUntilLine t1) as HS.
    destruct (parseDef_calls_once (SkipWhiteUntilLine t1)) as [r Hr Hf | u k Hu Hk Hf].
    + apply no_call with (r := parseItem_close name r).
      * pose proof (pending_parseItem_close name r). destruct Hr as [Hr _].
        split; intros; lia.
      * intros pl. rewrite parseItem_as_close, HNm, Hf. reflexivity.
    + apply one_call with (u := u) (k := fun r => parseItem_close name (k r)).
      * lia.
      * intros r. pose proof (pending_parseItem_close name (k r)).
        specialize (Hk r). lia.
      * intros pl. rewrite parseItem_as_close, HNm, Hf.
        destruct (pl u); reflexivity.
Qed.

End ItemFacts.

(** ** [parseList] terminates: the fuel is enough *)

Section ListFacts.

Context `{UnicodeTables}.

(** One turn of the loop of [parseList] around the item parser [item] and
    the rest of the loop [again]. *)
Definition parseList_turn
    (item : Tokenizer -> option (parsed (option smap)))
    (again : smap -> Tokenizer -> option (parsed (option smap)))
    (anns : smap) (t : Tokenizer) : option (parsed (option smap)) :=
  let t := SkipWhite t in
  let '((tk, err), t) := Peek t in
  if negb (is_nil err) && negb (is_io_EOF err) then Some ((None, err), t)
  else if is_io_EOF err
          || (negb (Lexeme tk =? 0x28) && negb (Lexeme tk =? 0x5F)
              && negb (unicode.IsLetter (Lexeme tk)))
  then Some ((Some anns, None), t)
  else
    match item t with
    | None => None
    | Some ((itemAnns, err), t) =>
      match err with
      | Some e =>
        if is_io_EOF (Some e) then Some ((None, Some EOF), t)
        else Some ((None, Some e), t)
      | None => again (merge_into anns (entries itemAnns)) t
      end
    end.

Lemma parseList_loop_S n anns t :
  parseList_loop (S n) anns t =
  parseList_turn (parseItem (parseList_loop n ∅)) (parseList_loop n) anns t.
Proof. reflexivity. Qed.

(** With more fuel than tokens pending the loop returns, the result does
    not depend on the fuel, and no token is handed back. *)
Lemma parseList_loop_spec n :
  forall anns t, (pending t < n)%nat ->
  exists r, parseList_loop n anns t = Some r /\
            (pending (snd r) <= pending t)%nat /\
            forall m, (pending t < m)%nat -> parseList_loop m anns t = Some r.
Proof.
  induction n as [|n IH]; intros anns t Hn; [lia|].
  pose proof (pending_SkipWhite t) as HS.
  pose proof (pending_Peek (SkipWhite t)) as HPk.
  assert (Hitem : forall t1, (pending t1 <= pending t)%nat ->
    exists r0, shrinks t1 r0 /\
      forall m, (pending t1 <= m)%nat -> parseItem (parseList_loop m ∅) t1 = Some r0).
  { intros t1 Ht1.
    destruct (parseItem_calls_once t1) as [r0 Hr0 Hf | u k Hu Hk Hf].
    - exists r0. split; [exact Hr0 | intros; apply Hf].
    - destruct (IH ∅ u ltac:(lia)) as (ru & _ & Hru & Hm).
      exists (k ru). split.
      + specialize (Hk ru). split; intros; lia.
      + intros m Hm'. rewrite Hf, (Hm m) by lia. reflexivity. }
  assert (Hturn : forall m, (pending t < S m)%nat ->
            parseList_loop (S m) anns t =
            parseList_turn (parseItem (parseList_loop m ∅)) (parseList_loop m) anns t)
    by (intros; apply parseList_loop_S).
  unfold parseList_turn in Hturn.
  destruct (Peek (SkipWhite t)) as [[tk err] t1] eqn:HP. cbn [snd] in HPk.
  destruct (negb (is_nil err) && negb (is_io_EOF err)) eqn:Herr.
  { exists ((None, err), t1). rewrite Hturn by lia. cbn [snd].
    repeat split; [lia|]. intros [|m] Hm; [lia|]. apply Hturn. lia. }
  destruct (is_io_EOF err
            || (negb (Lexeme tk =? 40) && negb (Lexeme tk =? 95)
                && negb (unicode.IsLetter (Lexeme tk)))) eqn:Hstop.
  { exists ((Some anns, None), t1). rewrite Hturn by lia. cbn [snd].
    repeat split; [lia|]. intros [|m] Hm; [lia|]. apply Hturn. lia. }
  destruct (Hitem t1 ltac:(lia)) as ([[itemAnns [e|]] t2] & [Hle Hlt] & Hpi);
    cbn [fst snd] in *.
  - exists (if is_io_EOF (Some e) then ((None, Some EOF), t2) else ((None, Some e), t2)).
    split; [|split].
    + rewrite Hturn, Hpi by lia. destruct (is_io_EOF (Some e)); reflexivity.
    + destruct (is_io_EOF (Some e)); cbn [snd]; lia.
    + intros [|m] Hm; [lia|]. rewrite Hturn, Hpi by lia.
      destruct (is_io_EOF (Some e)); reflexivity.
  - specialize (Hlt eq_refl).
    destruct (IH (merge_into anns (entries itemAnns)) t2 ltac:(lia)) as (r & Hr & Hrle & Hrm).
    exists r. split; [|split].
    + rewrite Hturn, Hpi by lia. exact Hr.
    + lia.
    + intros [|m] Hm; [lia|]. rewrite Hturn, Hpi by lia. apply Hrm. lia.
Qed.

(** [parseList] always returns: the loop never runs out of fuel. *)
Theorem parseList_loop_total n anns t :
  (pending t < n)%nat -> exists r, parseList_loop n anns t = Some r.
Proof.
  intros Hn. destruct (parseList_loop_spec n anns t Hn) as (r & Hr & _). eauto.
Qed.

Lemma parseList_loop_fuel n m anns t :
  (pending t < n)%nat -> (pending t < m)%nat ->
  parseList_loop n anns t = parseList_loop m anns t.
Proof.
  intros Hn Hm. destruct (parseList_loop_spec n anns t Hn) as (r & Hr & _ & Hall).
  rewrite Hr. symmetry. apply Hall. exact Hm.
Qed.

Lemma parseList_loop_shrinks n anns t r :
  (pending t < n)%nat -> parseList_loop n anns t = Some r ->
  (pending (snd r) <= pending t)%nat.
Proof.
  intros Hn Hr. destruct (parseList_loop_spec n anns t Hn) as (r' & Hr' & Hle & _).
  congruence.
Qed.

Theorem Parse_total s : exists r, Parse s = Some r.
Proof.
  unfold Parse, parseList.
  destruct (parseList_loop_total (S (pending (NewTokenizer s))) ∅ (NewTokenizer s))
    as [[r t] Hr]; [lia|].
  rewrite Hr. eauto.
Qed.

(** The loop with the map built so far, on its own fuel. *)
Definition parseList_from (anns : smap) (t : Tokenizer) : option (parsed (option smap)) :=
  parseList_loop (S (pending t)) anns t.

Lemma parseItem_shrinks t r :
  parseItem parseList t = Some r -> shrinks t r.
Proof.
  intros Hr. destruct (parseItem_calls_once t) as [r0 Hr0 Hf | u k Hu Hk Hf].
  - rewrite Hf in Hr. inversion Hr; subst. exact Hr0.
  - rewrite Hf in Hr. destruct (parseList u) as [ru|] eqn:Hu'; [|discriminate].
    inversion Hr; subst.
    apply parseList_loop_shrinks in Hu'; [|lia].
    specialize (Hk ru). split; intros; lia.
Qed.

Lemma parseItem_fuel n t :
  (pending t <= n)%nat -> parseItem (parseList_loop n ∅) t = parseItem parseList t.
Proof.
  intros Hn. destruct (parseItem_calls_once t) as [r0 Hr0 Hf | u k Hu Hk Hf].
  - rewrite !Hf. reflexivity.
  - rewrite !Hf. unfold parseList.
    rewrite (parseList_loop_fuel n (S (pending u))) by lia. reflexivity.
Qed.

(** The equation of the loop of [parseList]: the fuel has gone. *)
Theorem parseList_from_eq anns t :
  parseList_from anns t = parseList_turn (parseItem parseList) parseList_from anns t.
Proof.
  unfold parseList_from at 1. rewrite parseList_loop_S.
  unfold parseList_turn.
  pose proof (pending_SkipWhite t) as HS.
  pose proof (pending_Peek (SkipWhite t)) as HPk.
  destruct (Peek (SkipWhite t)) as [[tk err] t1]. cbn [snd] in HPk.
  destruct (negb (is_nil err) && negb (is_io_EOF err)); [reflexivity|].
  destruct (is_io_EOF err
            || (negb (Lexeme tk =? 40) && negb (Lexeme tk =? 95)
                && negb (unicode.IsLetter (Lexeme tk)))); [reflexivity|].
  rewrite parseItem_fuel by lia.
  destruct (parseItem parseList t1) as [[[itemAnns [e|]] t2]|] eqn:Hitem; try reflexivity.
  apply parseItem_shrinks in Hitem as [_ Hlt]. specialize (Hlt eq_refl). cbn [snd] in Hlt.
  unfold parseList_from. apply parseList_loop_fuel; lia.
Qed.

End ListFacts.

(** ** Where a List stops *)

Lemma string_from_add n m s :
  string_from (n + m) s = string_from m (string_from n s).
Proof.
  revert s. induction n as [|n IH]; intros s; [reflexivity|].
  destruct s as [|c s]; simpl.
  - destruct m; reflexivity.
  - apply IH.
Qed.

Lemma rest_of_advance t tk :
  0 <= bytePos t -> 0 <= Size tk ->
  rest_of (advance t tk) = string_from (Z.to_nat (Size tk)) (rest_of t).
Proof.
  intros Hb Hs.
  assert (Hsrc : src (advance t tk) = src t /\ bytePos (advance t tk) = bytePos t + Size tk)
    by (unfold advance; destruct (Lexeme tk =? 10); split; reflexivity).
  destruct Hsrc as [Hsrc Hbp]. unfold rest_of. rewrite Hsrc, Hbp.
  rewrite Z2Nat.inj_add by lia. apply string_from_add.
Qed.

(** A source text of white space and terminators only: every rune it
    decodes to is white space ([unicode.IsSpace], the line feed included)
    or the terminator [;]. *)
Inductive white_or_terminators : string -> Prop :=
| wt_end : white_or_terminators EmptyString
| wt_rune s r size :
    s <> EmptyString ->
    utf8.DecodeRuneInString s = (r, size) ->
    unicode.IsSpace r = true \/ r = 0x3B ->
    white_or_terminators (string_from (Z.to_nat size) s) ->
    white_or_terminators s.

Section ListStops.

Context `{UnicodeTables}.

(** The test of [parseList] on the token after the white space:
    [tk.Lexeme != '(' && tk.Lexeme != '_' && !unicode.IsLetter(tk.Lexeme)]. *)
Definition not_name_start (tk : Token) : bool :=
  negb (Lexeme tk =? 0x28) && negb (Lexeme tk =? 0x5F) && negb (unicode.IsLetter (Lexeme tk)).

Lemma parseList_loop_stop fuel anns t tk err t1 :
  Peek (SkipWhite t) = ((tk, err), t1) ->
  err = Some io_EOF \/ (err = None /\ not_name_start tk = true) ->
  parseList_loop (S fuel) anns t = Some ((Some anns, None), t1).
Proof.
  intros HP Hstop. simpl. rewrite HP.
  destruct Hstop as [-> | [-> Hns]]; [reflexivity|].
  unfold not_name_start in Hns. cbn [is_nil is_io_EOF negb andb orb].
  rewrite Hns. reflexivity.
Qed.

Lemma SkipWhite_white_or_terminators s :
  white_or_terminators s ->
  forall t, rest_of t = s -> Size (lookahead t) <= 0 -> 0 <= bytePos t ->
  exists tk err t1,
    Peek (SkipWhite t) = ((tk, err), t1) /\
    (err = Some io_EOF \/ (err = None /\ not_name_start tk = true)).
Proof.
  induction 1 as [|s r size Hne Hd Hcls Hrest IH]; intros t Hs Hla Hb.
  - assert (Hend : len (src t) <= bytePos t).
    { destruct (Z_lt_le_dec (bytePos t) (len (src t))) as [Hlt|]; [|lia].
      exfalso. unfold rest_of in Hs.
      assert (Hn : (Z.to_nat (bytePos t) <= String.length (src t))%nat)
        by (unfold len in Hlt; lia).
      pose proof (string_from_len _ _ Hn) as Hl. rewrite Hs in Hl.
      unfold len in *. simpl in Hl. lia. }
    assert (HP : Peek t = ((Token0, Some io_EOF), t)).
    { unfold Peek, empty.
      assert (H1 : (0 <? Size (lookahead t)) = false) by lia.
      assert (H2 : (len (src t) <=? bytePos t) = true) by lia.
      rewrite H1, H2. reflexivity. }
    exists Token0, (Some io_EOF), t.
    rewrite SkipWhite_eq, HP. cbn [is_nil negb orb]. rewrite HP. auto.
  - pose proof (Peek_cases t) as Hc.
    assert (Hr : r <> utf8.RuneError).
    { destruct Hcls as [Hsp | ->]; [|discriminate].
      intros ->. discriminate Hsp. }
    assert (Hlt : bytePos t < len (src t)).
    { rewrite <- Hs in Hne. apply string_from_nonempty in Hne. unfold len. lia. }
    inversion Hc as [Hc1 | Hc1 Hc2 | size' Hc1 Hc2 Hc3 | r' size' Hc1 Hc2 Hc3 Hc4 Hc5 Hc6];
      try lia.
    { rewrite Hs, Hd in Hc3. congruence. }
    rewrite Hs, Hd in Hc3. inversion Hc3; subst r' size'. clear Hc3.
    set (tk := fresh_token t r size) in *.
    assert (HP : Peek t = ((tk, None), set_lookahead t tk)) by (symmetry; assumption).
    destruct (unicode.IsSpace r) eqn:Hsp.
    + destruct (IH (advance t tk)) as (tk' & err' & t1 & HP' & Hstop).
      * rewrite rest_of_advance by (simpl; lia). rewrite Hs. reflexivity.
      * unfold advance. destruct (Lexeme tk =? 10); simpl; lia.
      * unfold advance. destruct (Lexeme tk =? 10); simpl; lia.
      * exists tk', err', t1. split; [|exact Hstop].
        rewrite SkipWhite_eq, HP. cbn [is_nil negb orb Lexeme tk fresh_token].
        rewrite Hsp. cbn [negb].
        replace (set_lookahead t tk) with (snd (Peek t)) by (rewrite HP; reflexivity).
        rewrite Next_after_Peek, (Next_ok _ _ _ HP). exact HP'.
    + destruct Hcls as [Hsp' | ->]; [congruence|].
      exists tk, None, (set_lookahead t tk).
      rewrite SkipWhite_eq, HP. cbn [is_nil negb orb Lexeme tk fresh_token].
      rewrite Hsp. cbn [negb].
      split; [|right; split; reflexivity].
      replace (set_lookahead t tk) with (snd (Peek t)) at 1
        by (rewrite HP; reflexivity).
      rewrite Peek_Peek. exact HP.
Qed.

(** C5. Whatever the source and the map built so far: when, after the
    white space, [parseList] finds the end of input, or a token that is none
    of [(], [_] and a letter, it returns the map built so far and no error;
    the token is still the next one, and the position counters are where
    the white space ended.  In particular a source of white space and
    terminators only parses to the empty map and no error. *)
Theorem parseList_stops_cleanly :
  (forall fuel anns t tk err t1,
     Peek (SkipWhite t) = ((tk, err), t1) ->
     err = Some io_EOF \/ (err = None /\ not_name_start tk = true) ->
     parseList_loop (S fuel) anns t = Some ((Some anns, None), t1) /\
     Peek t1 = ((tk, err), t1) /\
     counters t1 = counters (SkipWhite t)) /\
  (forall s, white_or_terminators s -> Parse s = Some (Some ∅, None)).
Proof.
  split.
  - intros fuel anns t tk err t1 HP Hstop.
    split; [eapply parseList_loop_stop; eauto|].
    replace t1 with (snd (Peek (SkipWhite t))) by (rewrite HP; reflexivity).
    split; [rewrite Peek_Peek, HP; reflexivity | apply Peek_counters].
  - intros s Hs.
    destruct (SkipWhite_white_or_terminators s Hs (NewTokenizer s))
      as (tk & err & t1 & HP & Hstop); try reflexivity; try (simpl; lia).
    unfold Parse, parseList.
    rewrite (parseList_loop_stop _ _ _ _ _ _ HP Hstop). reflexivity.
Qed.

End ListStops.

(** ** Merging the Items of a List *)

Lemma merge_into_union (anns m : smap) : merge_into anns m = m ∪ anns.
Proof.
  unfold merge_into.
  apply (map_fold_weak_ind (fun r m => r = m ∪ anns)).
  - symmetry. apply (left_id_L ∅ (∪)).
  - intros i x m' r _ ->. apply insert_union_l.
Qed.

Lemma merge_into_lookup (anns m : smap) (k : string) :
  merge_into anns m !! k = match m !! k with Some v => Some v | None => anns !! k end.
Proof.
  rewrite merge_into_union, lookup_union.
  destruct (m !! k), (anns !! k); reflexivity.
Qed.

(** The value the last map of [ms] that binds [k] gives it, [acc] if none
    does. *)
Definition last_binding (k : string) (acc : option string) (ms : list smap) : option string :=
  foldl (fun acc m => match m !! k with Some v => Some v | None => acc end) acc ms.

Lemma foldl_merge_into_lookup (ms : list smap) (anns : smap) (k : string) :
  foldl merge_into anns ms !! k = last_binding k (anns !! k) ms.
Proof.
  revert anns. induction ms as [|m ms IH]; intros anns; [reflexivity|].
  simpl. rewrite IH, merge_into_lookup. reflexivity.
Qed.



Section ListItems.

Context `{UnicodeTables}.

(** [items t ms t']: from the state [t] the List is the Items whose maps
    are [ms], each parsed by [parseItem] without an error, and it stops at
    [t'], at the end of input or before a token that starts no Name. *)
Inductive items : Tokenizer -> list smap -> Tokenizer -> Prop :=
| items_stop t tk err t1 :
    Peek (SkipWhite t) = ((tk, err), t1) ->
    err = Some io_EOF \/ (err = None /\ not_name_start tk = true) ->
    items t [] t1
| items_item t tk t1 m t2 ms t3 :
    Peek (SkipWhite t) = ((tk, None), t1) ->
    not_name_start tk = false ->
    parseItem parseList t1 = Some ((Some m, None), t2) ->
    items t2 ms t3 ->
    items t (m :: ms) t3.



End ListItems.

(** ** Identifiers *)

Lemma append_empty_r (s : string) : s +:+ "" = s.
Proof.
  induction s as [|c s IH]; [reflexivity|].
  change (String c (s +:+ "") = String c s). f_equal. exact IH.
Qed.

Lemma append_assoc (s1 s2 s3 : string) : (s1 +:+ s2) +:+ s3 = s1 +:+ (s2 +:+ s3).
Proof.
  induction s1 as [|c s1 IH]; [reflexivity|].
  change (String c ((s1 +:+ s2) +:+ s3) = String c (s1 +:+ (s2 +:+ s3))).
  f_equal. exact IH.
Qed.

(** The text [string(r1) + ... + string(rn)] of the runes [r1 ... rn]. *)
Definition string_of_runes (rs : list Z) : string :=
  foldr (fun r s => utf8.string_of_rune r +:+ s) ""%string rs.

Section Identifiers.

Context `{UnicodeTables}.

(** [letters_digits t rs t']: from the state [t] the next tokens are the
    letters and digits [rs], and then comes a token, still unconsumed at
    [t'], that is neither. *)
Inductive letters_digits : Tokenizer -> list Z -> Tokenizer -> Prop :=
| ld_end t tk t1 :
    Peek t = ((tk, None), t1) ->
    unicode.IsLetter (Lexeme tk) = false ->
    unicode.IsDigit (Lexeme tk) = false ->
    letters_digits t [] t1
| ld_more t tk t1 rs t2 :
    Peek t = ((tk, None), t1) ->
    unicode.IsLetter (Lexeme tk) || unicode.IsDigit (Lexeme tk) = true ->
    letters_digits (snd (Next t)) rs t2 ->
    letters_digits t (Lexeme tk :: rs) t2.

Lemma parseIdent_loop_run t rs t2 :
  letters_digits t rs t2 ->
  forall n id, (pending t < n)%nat ->
  parseIdent_loop n id t = ((id +:+ string_of_runes rs, None), t2).
Proof.
  induction 1 as [t tk t1 HP HL HD | t tk t1 rs t2 HP HLD _ IH]; intros n id Hn;
    (destruct n as [|n]; [lia|]); simpl; rewrite HP.
  - rewrite HL, HD. simpl. rewrite append_empty_r. reflexivity.
  - apply orb_true_iff in HLD.
    assert (Hc : negb (unicode.IsLetter (Lexeme tk)) && negb (unicode.IsDigit (Lexeme tk)) = false).
    { destruct HLD as [-> | ->]; simpl; [reflexivity | apply andb_false_r]. }
    rewrite Hc.
    replace t1 with (snd (Peek t)) by (rewrite HP; reflexivity).
    rewrite Next_after_Peek.
    pose proof (pending_Next_Peek _ _ _ HP) as Hlt.
    replace t1 with (snd (Peek t)) in Hlt by (rewrite HP; reflexivity).
    rewrite Next_after_Peek in Hlt.
    rewrite IH by lia. rewrite append_assoc. reflexivity.
Qed.

Lemma letters_digits_runes t rs t2 :
  letters_digits t rs t2 ->
  Forall (fun r => unicode.IsLetter r || unicode.IsDigit r = true /\ r <> 0x5F) rs /\
  exists tk, Peek t2 = ((tk, None), t2) /\
             unicode.IsLetter (Lexeme tk) = false /\ unicode.IsDigit (Lexeme tk) = false.
Proof.
  induction 1 as [t tk t1 HP HL HD | t tk t1 rs t2 HP HLD _ [IH1 IH2]].
  - split; [constructor|]. exists tk.
    replace t1 with (snd (Peek t)) by (rewrite HP; reflexivity).
    rewrite Peek_Peek, HP. auto.
  - split; [|exact IH2]. constructor; [|exact IH1].
    split; [exact HLD|]. intros Heq. rewrite Heq in HLD. discriminate HLD.
Qed.

(** C9. [parseIdent], entered on a first rune that is a letter or an
    underscore (as [parseName] enters it), takes that rune, then exactly
    the runes that follow while they are letters or digits, and returns
    their text, leaving the first token that is neither unconsumed.  None of
    the runes after the first is an underscore: an underscore met there
    ends the identifier and stays unconsumed. *)
Theorem parseIdent_letters_digits (t : Tokenizer) (tk0 : Token) (t0 : Tokenizer)
    (rs : list Z) (t2 : Tokenizer) :
  Peek t = ((tk0, None), t0) ->
  Lexeme tk0 = 0x5F \/ unicode.IsLetter (Lexeme tk0) = true ->
  letters_digits (snd (Next t)) rs t2 ->
  parseIdent t = ((string_of_runes (Lexeme tk0 :: rs), None), t2) /\
  parseName t = ((string_of_runes (Lexeme tk0 :: rs), None), t2) /\
  Forall (fun r => unicode.IsLetter r || unicode.IsDigit r = true /\ r <> 0x5F) rs /\
  (exists tk, Peek t2 = ((tk, None), t2) /\
              unicode.IsLetter (Lexeme tk) = false /\ unicode.IsDigit (Lexeme tk) = false) /\
  (forall u tk u1, Peek u = ((tk, None), u1) -> Lexeme tk = 0x5F ->
     letters_digits u [] u1 /\
     forall n id, parseIdent_loop (S n) id u = ((id, None), u1)).
Proof.
  intros HP Hfirst Hrun.
  assert (HI : parseIdent t = ((string_of_runes (Lexeme tk0 :: rs), None), t2)).
  { unfold parseIdent. rewrite (Next_ok _ _ _ HP).
    rewrite (Next_ok _ _ _ HP) in Hrun. cbn [snd] in Hrun.
    rewrite (parseIdent_loop_run _ _ _ Hrun) by lia. reflexivity. }
  split; [exact HI|]. split; [|split; [|split]].
  - unfold parseName. rewrite HP.
    assert (Hp : (Lexeme tk0 =? 40) = false).
    { destruct Hfirst as [-> | HL]; [reflexivity|].
      destruct (Lexeme tk0 =? 40) eqn:E; [|reflexivity].
      apply Z.eqb_eq in E. rewrite E in HL. discriminate HL. }
    assert (Hn : (Lexeme tk0 =? 95) || unicode.IsLetter (Lexeme tk0) = true).
    { destruct Hfirst as [-> | ->]; [reflexivity | apply orb_true_r]. }
    rewrite Hp, Hn. rewrite <- HI.
    replace t0 with (snd (Peek t)) by (rewrite HP; reflexivity).
    unfold parseIdent. rewrite Next_after_Peek. reflexivity.
  - apply (letters_digits_runes _ _ _ Hrun).
  - apply (letters_digits_runes _ _ _ Hrun).
  - intros u tk u1 HPu Hus.
    assert (HL : unicode.IsLetter (Lexeme tk) = false) by (rewrite Hus; reflexivity).
    assert (HD : unicode.IsDigit (Lexeme tk) = false) by (rewrite Hus; reflexivity).
    split; [eapply ld_end; eauto|].
    intros n id. simpl. rewrite HPu, HL, HD. reflexivity.
Qed.

End Identifiers.

(** ** The loops of [parseIdent] and [parseType] have fuel enough *)

Section TokenLoops.

Context `{UnicodeTables}.

Lemma parseIdent_loop_fuel n m id t :
  (pending t < n)%nat -> (pending t < m)%nat ->
  parseIdent_loop n id t = parseIdent_loop m id t.
Proof.
  revert m id t. induction n as [|n IH]; intros m id t Hn Hm; [lia|].
  destruct m as [|m]; [lia|]. simpl.
  destruct (Peek t) as [[tk [e|]] t1] eqn:HP; [reflexivity|].
  destruct (negb (unicode.IsLetter (Lexeme tk)) && negb (unicode.IsDigit (Lexeme tk)));
    [reflexivity|].
  pose proof (pending_Next_Peek _ _ _ HP). apply IH; lia.
Qed.

Lemma parseType_loop_fuel n m typ t :
  (pending t < n)%nat -> (pending t < m)%nat ->
  parseType_loop n typ t = parseType_loop m typ t.
Proof.
  revert m typ t. induction n as [|n IH]; intros m typ t Hn Hm; [lia|].
  destruct m as [|m]; [lia|]. simpl.
  destruct (Peek t) as [[tk err] t1] eqn:HP.
  destruct (negb (is_nil err) && negb (is_io_EOF err)) eqn:Herr; [reflexivity|].
  destruct ((Lexeme tk =? 10) || (Lexeme tk =? 59) || is_io_EOF err) eqn:Hend;
    [reflexivity|].
  assert (err = None) as ->.
  { destruct err as [e|]; [|reflexivity].
    destruct e; simpl in Herr, Hend; try discriminate.
    rewrite orb_true_r in Hend. discriminate. }
  pose proof (pending_Next_Peek _ _ _ HP). apply IH; lia.
Qed.

End TokenLoops.

(** ** The keys of an Item *)

Lemma append_inj_l (s a b : string) : s +:+ a = s +:+ b -> a = b.
Proof.
  induction s as [|c s IH]; intros Heq; [exact Heq|].
  apply IH. change (String c (s +:+ a) = String c (s +:+ b)) in Heq.
  congruence.
Qed.

Lemma length_append (a b : string) :
  String.length (a +:+ b) = (String.length a + String.length b)%nat.
Proof.
  induction a as [|c a IH]; [reflexivity|].
  change (S (String.length (a +:+ b)) = S (String.length a + String.length b)).
  congruence.
Qed.

Lemma item_key_inj (name a b : string) : item_key name a = item_key name b -> a = b.
Proof.
  unfold item_key.
  destruct (String.eqb_spec a ""), (String.eqb_spec b ""); subst; intros Heq;
    try reflexivity.
  - apply (f_equal String.length) in Heq. rewrite length_append in Heq.
    simpl in Heq. lia.
  - apply (f_equal String.length) in Heq. rewrite length_append in Heq.
    simpl in Heq. lia.
  - apply append_inj_l in Heq. apply (append_inj_l ".") in Heq. exact Heq.
Qed.

(** The map [parseItem] builds has, under the key of each entry of the
    Def, the text of that entry, and nothing else: the keys are distinct,
    and the order in which Go ranges over [def] does not show. *)
Lemma prefix_keys_lookup (name : string) (def : smap) :
  (forall sub, prefix_keys name def !! item_key name sub = def !! sub) /\
  (forall k, (forall sub, k <> item_key name sub) -> prefix_keys name def !! k = None).
Proof.
  unfold prefix_keys.
  apply (map_fold_weak_ind (fun (r m : smap) =>
    (forall sub, r !! item_key name sub = m !! sub) /\
    (forall k, (forall sub, k <> item_key name sub) -> r !! k = None))).
  - split; intros; apply lookup_empty.
  - intros i x m r _ [IH1 IH2]. split.
    + intros sub. destruct (decide (i = sub)) as [->|Hne].
      * rewrite !lookup_insert_eq. reflexivity.
      * rewrite !lookup_insert_ne; [apply IH1 | exact Hne |].
        intros Heq. apply Hne. eapply item_key_inj; eauto.
    + intros k Hk. rewrite lookup_insert_ne; [apply IH2; exact Hk|].
      intros Heq. apply (Hk i). symmetry. exact Heq.
Qed.

(** * The claims on concrete sources *)

(** A statement that holds whatever the tables [unicode.Letter] and
    [unicode.Digit] say of the runes above Latin-1. *)
Inductive for_all_tables (P : UnicodeTables -> Prop) : Prop :=
| all_tables : (forall U : UnicodeTables, P U) -> for_all_tables P.

Definition LF : string := String (byte_of 0x0A) EmptyString.

(** C1, as stated, fails: the type text of [Read] runs to the end of the
    input and takes the closing brace with it, so [parseDef] meets the end
    of input where it expects the brace, and [Parse] returns the error [EOF]
    (unexpected end of file) and no map. *)
Lemma Parse_receiver_block_unterminated :
  for_all_tables (fun U =>
    Parse "(*File) { Read func(b []byte) (n int, err error) }"
    = Some (None, Some EOF)).
Proof. constructor. intros U. vm_compute. reflexivity. Qed.

(** C1, amended.  The block of the pointer receiver File with the one
    method Read, written on one line with nothing between the type text and
    the closing brace, fails with the truncation error; with a terminator
    before the closing brace it parses to exactly the one entry from the
    receiver-qualified key of Read to the text
    [func(b []byte) (n int, err error)]. *)
Theorem Parse_receiver_block (U : UnicodeTables) :
  Parse "(*File) { Read func(b []byte) (n int, err error) }"
  = Some (None, Some EOF) /\
  Parse "(*File) { Read func(b []byte) (n int, err error); }"
  = Some (Some {[ "(*File).Read"%string := "func(b []byte) (n int, err error)"%string ]}, None).
Proof. split; vm_compute; reflexivity. Qed.

(** C2, as stated, fails: the type text of [Method] is [sig } }], both
    closing braces included, and [Parse] returns the error [EOF] and no
    map. *)
Lemma Parse_nested_blocks_unterminated :
  for_all_tables (fun U =>
    Parse "pkg { Type { Method sig } }" = Some (None, Some EOF)).
Proof. constructor. intros U. vm_compute. reflexivity. Qed.

(** C2, amended.  The source [pkg { Type { Method sig } }] fails with the
    truncation error; with a terminator after the type text and after the
    inner block it parses to exactly the one entry from [pkg.Type.Method]
    to [sig]: the keys of a nested Def are prefixed by the name of the
    enclosing Item and a dot. *)
Theorem Parse_nested_blocks (U : UnicodeTables) :
  Parse "pkg { Type { Method sig } }" = Some (None, Some EOF) /\
  Parse "pkg { Type { Method sig; }; }"
  = Some (Some {[ "pkg.Type.Method"%string := "sig"%string ]}, None).
Proof. split; vm_compute; reflexivity. Qed.

(** C3, as stated, fails: [parseList] stops before the digit, which
    starts no Name, and [Parse] returns the empty map and no error. *)
Lemma Parse_leading_digit_no_error :
  for_all_tables (fun U => Parse "123abc int" = Some (Some ∅, None)).
Proof. constructor. intros U. vm_compute. reflexivity. Qed.

(** C3, amended.  Parsing [123abc int] raises no syntax error: the List
    stops cleanly before the leading digit and the result is the empty map
    and no error; the digit [1] is still the next token, at line 1,
    column 1. *)
Theorem Parse_leading_digit (U : UnicodeTables) :
  Parse "123abc int" = Some (Some ∅, None) /\
  exists t', parseList (NewTokenizer "123abc int") = Some ((Some ∅, None), t') /\
             Peek t' = ((mkToken 0x31 1 1 1 0 0, None), t').
Proof.
  split; [vm_compute; reflexivity|].
  exists (mkTokenizer "123abc int" 0 0 0 1 (mkToken 0x31 1 1 1 0 0)).
  split; vm_compute; reflexivity.
Qed.

(** C4.  The source [Foo {], an opening brace and then the end of input,
    fails with the error [EOF] (unexpected end of file): neither an
    unexpected-token error nor an encoding error. *)
Theorem Parse_unclosed_block (U : UnicodeTables) :
  Parse "Foo {" = Some (None, Some EOF).
Proof. vm_compute. reflexivity. Qed.

(** ** Instances of the general claims *)

(** C5 at work: a List in a block stops before the closing brace, which
    stays the next token, and a source of blanks, line feeds and semicolons
    parses to the empty map. *)
Lemma parseList_stops_cleanly_witness :
  for_all_tables (fun U =>
    (let t := NewTokenizer "  } x" in
     let tk := mkToken 0x7D 1 3 1 2 2 in
     let t1 := mkTokenizer "  } x" 2 2 0 1 tk in
     parseList_loop 1 {[ "a"%string := "b"%string ]} t
       = Some ((Some {[ "a"%string := "b"%string ]}, None), t1) /\
     Peek t1 = ((tk, None), t1) /\
     counters t1 = counters (SkipWhite t)) /\
    Parse (" ;" +:+ LF +:+ "; ") = Some (Some ∅, None)).
Proof.
  constructor. intros U.
  destruct (@parseList_stops_cleanly U) as [Hstop Hwhite]. split.
  - apply Hstop.
    + vm_compute. reflexivity.
    + right. split; reflexivity.
  - apply Hwhite.
    repeat (eapply wt_rune;
            [ discriminate
            | vm_compute; reflexivity
            | first [left; reflexivity | right; reflexivity]
            | vm_compute string_from ]).
    apply wt_end.
Defined.


(** The two-byte rune U+00E9 and then the letter a. *)
Definition e_acute_a : string :=
  String (byte_of 0xC3) (String (byte_of 0xA9) "a").

(** C7 at work: after the two-byte rune the letter a is at byte offset 2
    and at column 2. *)
Lemma token_col_in_runes_witness :
  let t := snd (Next (NewTokenizer e_acute_a)) in
  let tk := mkToken 0x61 1 2 1 2 1 in
  reachable e_acute_a t /\
  Peek t = ((tk, None), set_lookahead t tk) /\
  Col tk = runePos t - lastLinePos t + 1 /\
  BytePos tk = 2 /\ Col tk = 2.
Proof.
  intros t tk.
  assert (Hreach : reachable e_acute_a t) by (apply reach_Next, reach_new).
  assert (HP : Peek t = ((tk, None), set_lookahead t tk)) by (vm_compute; reflexivity).
  destruct (token_col_in_runes e_acute_a t tk _ Hreach HP) as [HC _].
  split; [exact Hreach|]. split; [exact HP|]. split; [exact HC|].
  split; reflexivity.
Defined.

(** C9 at work: on [ab1_c x] the identifier is [ab1]; the underscore ends
    it and is the next token. *)
Lemma parseIdent_letters_digits_witness :
  for_all_tables (fun U =>
    let t := NewTokenizer "ab1_c x" in
    let t2 := mkTokenizer "ab1_c x" 3 3 0 1 (mkToken 0x5F 1 4 1 3 3) in
    parseIdent t = (("ab1"%string, None), t2) /\
    parseName t = (("ab1"%string, None), t2)).
Proof.
  constructor. intros U t t2.
  destruct (parseIdent_letters_digits t (mkToken 0x61 1 1 1 0 0)
              (set_lookahead t (mkToken 0x61 1 1 1 0 0)) [0x62; 0x31] t2)
    as (HI & HN & _).
  - vm_compute. reflexivity.
  - right. reflexivity.
  - eapply (ld_more _ (mkToken 0x62 1 2 1 1 1)).
    + vm_compute. reflexivity.
    + reflexivity.
    + eapply (ld_more _ (mkToken 0x31 1 3 1 2 2)).
      * vm_compute. reflexivity.
      * reflexivity.
      * eapply ld_end.
        -- vm_compute. reflexivity.
        -- reflexivity.
        -- reflexivity.
  - split; [exact HI | exact HN].
Defined.

(** ** More sources, run through the parser *)

Example Parse_Foo_int (U : UnicodeTables) :
  Parse "Foo int" = Some (Some {[ "Foo"%string := "int"%string ]}, None).
Proof. vm_compute. reflexivity. Qed.

(** An underscore after the first rune ends the Name: the rest of the line
    is the type text. *)
Example Parse_underscore_in_name (U : UnicodeTables) :
  Parse "a_b int" = Some (Some {[ "a"%string := "_b int"%string ]}, None).
Proof. vm_compute. reflexivity. Qed.

(** [parseReceiver] calls [parseIdent] without the test of [parseName]:
    inside the parentheses of a receiver the first rune may be a digit. *)
Example Parse_receiver_digit (U : UnicodeTables) :
  Parse "(*123) x" = Some (Some {[ "(*123)"%string := "x"%string ]}, None).
Proof. vm_compute. reflexivity. Qed.

(** An identifier that runs to the end of the input is a truncated Item. *)
Example Parse_name_only (U : UnicodeTables) :
  Parse "Foo" = Some (None, Some EOF).
Proof. vm_compute. reflexivity. Qed.

(** Blocks written over several lines need no semicolons. *)
Example Parse_nested_blocks_lines (U : UnicodeTables) :
  Parse ("pkg {" +:+ LF +:+ "  Type {" +:+ LF +:+ "    Method sig" +:+ LF
         +:+ "  }" +:+ LF +:+ "}" +:+ LF)
  = Some (Some {[ "pkg.Type.Method"%string := "sig"%string ]}, None).
Proof. vm_compute. reflexivity. Qed.

(** An invalid byte on the second line: the encoding error carries line 2,
    column 1. *)
Example Parse_invalid_byte (U : UnicodeTables) :
  Parse ("Foo int" +:+ LF +:+ String (byte_of 0xFF) EmptyString)
  = Some (None, Some (UTF8Error 2 1)).
Proof. vm_compute. reflexivity. Qed.

(** The column of an error counts runes: after [Foo], a blank and the
    two-byte rune U+00E9 the invalid byte is the sixth rune and the seventh
    byte of its line; the error carries column 6. *)
Example Parse_invalid_byte_column (U : UnicodeTables) :
  Parse ("Foo " +:+ String (byte_of 0xC3) (String (byte_of 0xA9)
                      (String (byte_of 0xFF) EmptyString)))
  = Some (None, Some (UTF8Error 1 6)).
Proof. vm_compute. reflexivity. Qed.

(** The well-formed encoding of U+FFFD in a type text is reported as an
    encoding error too. *)
Example Parse_encoded_RuneError (U : UnicodeTables) :
  Parse ("Foo " +:+ utf8.string_of_rune utf8.RuneError) = Some (None, Some (UTF8Error 1 5)).
Proof. vm_compute. reflexivity. Qed.

(** * Further properties of the tokenizer *)

(** A failing [Next] returns the zero token and leaves the tokenizer as it
    was, so that the same failure comes back on every later call.  The
    error is [io.EOF], at the end of the source, or the [UTF8Error] of the
    current line and column, where the source does not decode; [Next] and
    [Peek] return no other error. *)
Theorem Next_failure_is_sticky (t : Tokenizer) (tk : Token) (e : error) (t' : Tokenizer) :
  Next t = ((tk, Some e), t') ->
  tk = Token0 /\ t' = t /\
  Peek t = ((Token0, Some e), t) /\
  Next t' = ((Token0, Some e), t') /\
  ((e = io_EOF /\ len (src t) <= bytePos t) \/
   (e = UTF8Error (line t) (col t) /\ bytePos t < len (src t) /\
    fst (utf8.DecodeRuneInString (rest_of t)) = utf8.RuneError)).
Proof.
  intros HN.
  destruct (Peek t) as [[tk0 [e0|]] t0] eqn:HP.
  - rewrite (Next_err _ _ _ _ HP) in HN. inversion HN; subst tk e t'.
    destruct (Peek_err _ _ _ _ HP) as [-> ->].
    split; [reflexivity|]. split; [reflexivity|]. split; [reflexivity|].
    split; [apply (Next_err _ _ _ _ HP)|].
    pose proof (Peek_cases t) as Hc. rewrite HP in Hc.
    inversion Hc as [| Hla Hend | size Hla Hlt Hd |]; subst.
    + left. split; [reflexivity | assumption].
    + right. split; [reflexivity|]. split; [assumption|]. rewrite Hd. reflexivity.
  - rewrite (Next_ok _ _ _ HP) in HN. discriminate.
Qed.

Lemma Next_failure_is_sticky_witness :
  let t := snd (Next (NewTokenizer "a")) in
  Next t = ((Token0, Some io_EOF), t) /\
  Next (snd (Next t)) = ((Token0, Some io_EOF), t).
Proof.
  intros t.
  destruct (Next_failure_is_sticky t Token0 io_EOF t) as (_ & _ & _ & HN & _).
  - vm_compute. reflexivity.
  - split; [vm_compute; reflexivity|].
    replace (snd (Next t)) with t by (vm_compute; reflexivity). exact HN.
Defined.

(** ** Tokens and the source *)

(** A cached token is the rune that the source decodes to at the current
    byte offset. *)
Definition lookahead_decoded (t : Tokenizer) : Prop :=
  0 < Size (lookahead t) ->
  utf8.DecodeRuneInString (rest_of t) = (Lexeme (lookahead t), Size (lookahead t))
  /\ Lexeme (lookahead t) <> utf8.RuneError.

Lemma lookahead_decoded_Peek t : lookahead_decoded t -> lookahead_decoded (snd (Peek t)).
Proof.
  intros Hla. pose proof (Peek_cases t) as Hc.
  inversion Hc as [| | | r size Hsz Hlt Hd Hr Hsize Hfit]; simpl snd; try exact Hla.
  intros _. simpl. split; [exact Hd | exact Hr].
Qed.

Lemma lookahead_decoded_Next t : lookahead_decoded (snd (Next t)).
Proof.
  destruct (Peek t) as [[tk [e|]] t1] eqn:HP.
  - rewrite (Next_err _ _ _ _ HP). simpl.
    destruct (Peek_err _ _ _ _ HP) as [_ ->].
    pose proof (Peek_cases t) as Hc. rewrite HP in Hc.
    intros Hsz. inversion Hc; lia.
  - rewrite (Next_ok _ _ _ HP). simpl. intros Hsz.
    unfold advance in Hsz. destruct (Lexeme tk =? 10); simpl in Hsz; lia.
Qed.

Lemma reachable_lookahead_decoded s t : reachable s t -> lookahead_decoded t.
Proof.
  induction 1.
  - intros Hsz. simpl in Hsz. lia.
  - apply lookahead_decoded_Peek. assumption.
  - apply lookahead_decoded_Next.
Qed.

(** [tk] is a token of the source [s]: the rune and the width that [s]
    decodes to at the byte offset [BytePos tk], within the source, with a
    rune offset, a line and a column that can be. *)
Definition source_token (s : string) (tk : Token) : Prop :=
  utf8.DecodeRuneInString (string_from (Z.to_nat (BytePos tk)) s) = (Lexeme tk, Size tk) /\
  Lexeme tk <> utf8.RuneError /\
  1 <= Size tk <= 4 /\
  0 <= BytePos tk /\ BytePos tk + Size tk <= len s /\
  0 <= RunePos tk <= BytePos tk /\
  1 <= Line tk <= RunePos tk + 1 /\
  1 <= Col tk <= RunePos tk + 1.

Lemma Peek_source_token s t tk t1 :
  reachable s t -> Peek t = ((tk, None), t1) ->
  source_token s tk /\
  BytePos tk = bytePos t /\ RunePos tk = runePos t /\ Line tk = line t /\ Col tk = col t.
Proof.
  intros Hreach HP.
  pose proof (reachable_inv _ _ Hreach) as [Hsrc Hb [Hr1 Hr2] Hl Hla].
  pose proof (reachable_lookahead_decoded _ _ Hreach) as Hdec.
  pose proof (Peek_cases t) as Hc. rewrite HP in Hc.
  assert (Hcol : 1 <= col t <= runePos t + 1) by (unfold col; lia).
  inversion Hc as [Hsz | | | r size Hsz Hlt Hd Hr Hsize Hfit]; subst t1 tk.
  - destruct (Hla Hsz) as (r & Heq & Hfit). destruct (Hdec Hsz) as [Hd Hne].
    assert (Hpos : BytePos (lookahead t) = bytePos t /\ RunePos (lookahead t) = runePos t
                   /\ Line (lookahead t) = line t /\ Col (lookahead t) = col t)
      by (rewrite Heq; repeat split).
    destruct Hpos as (Hbp & Hrp & Hln & Hcl).
    assert (Hne' : rest_of t <> EmptyString)
      by (intros He; rewrite He in Hd; simpl in Hd; inversion Hd; congruence).
    destruct (DecodeRuneInString_size _ _ _ Hne' Hd) as [Hs1 Hs4].
    unfold source_token. rewrite Hbp, Hrp, Hln, Hcl. unfold rest_of in Hd. rewrite Hsrc in Hd.
    repeat split; try assumption; try lia.
  - unfold source_token. simpl. unfold rest_of in Hd. rewrite Hsrc in *.
    repeat split; try assumption; try lia.
Qed.

(** On every state built from [NewTokenizer] by [Peek] and [Next] the
    counters stay within the source: the byte offset is at most [len(src)],
    the rune offset is at most the byte offset, the last line start is at
    most the rune offset, and the line and the column are at least 1 and at
    most one more than the rune offset. *)
Theorem Tokenizer_counters_in_bounds (s : string) (t : Tokenizer) :
  reachable s t ->
  src t = s /\
  0 <= lastLinePos t <= runePos t /\
  runePos t <= bytePos t <= len s /\
  1 <= line t <= runePos t + 1 /\
  1 <= col t <= runePos t + 1.
Proof.
  intros Hreach.
  pose proof (reachable_inv _ _ Hreach) as [Hsrc Hb [Hr1 Hr2] Hl Hla].
  unfold col. repeat split; try assumption; lia.
Qed.

Lemma Tokenizer_counters_in_bounds_witness :
  let t := snd (Next (snd (Next (NewTokenizer (e_acute_a +:+ LF))))) in
  counters t = (1, 3, 3, 2) /\ runePos t <= bytePos t <= len (e_acute_a +:+ LF).
Proof.
  intros t.
  destruct (Tokenizer_counters_in_bounds (e_acute_a +:+ LF) t) as (_ & _ & Hb & _).
  - apply reach_Next, reach_Next, reach_new.
  - split; [vm_compute; reflexivity | exact Hb].
Defined.

(** On those states the token that [Peek] returns is the rune the source
    decodes to at the current byte offset, with its width in bytes, and it
    carries the tokenizer's byte offset, rune offset, line and column: never
    the rune [utf8.RuneError], never a token past the end of the source. *)
Theorem Peek_token_of_source (s : string) (t : Tokenizer) (tk : Token) (t1 : Tokenizer) :
  reachable s t ->
  Peek t = ((tk, None), t1) ->
  utf8.DecodeRuneInString (string_from (Z.to_nat (bytePos t)) s) = (Lexeme tk, Size tk) /\
  Lexeme tk <> utf8.RuneError /\
  1 <= Size tk <= 4 /\
  bytePos t + Size tk <= len s /\
  BytePos tk = bytePos t /\ RunePos tk = runePos t /\
  Line tk = line t /\ Col tk = col t.
Proof.
  intros Hreach HP.
  destruct (Peek_source_token _ _ _ _ Hreach HP)
    as ((Hd & Hne & Hsz & Hb0 & Hfit & _) & Hbp & Hrp & Hln & Hcl).
  rewrite <- Hbp. repeat split; try assumption; lia.
Qed.

Lemma Peek_token_of_source_witness :
  let t := snd (Next (NewTokenizer e_acute_a)) in
  let tk := mkToken 0x61 1 2 1 2 1 in
  Peek t = ((tk, None), set_lookahead t tk) /\
  utf8.DecodeRuneInString (string_from (Z.to_nat (bytePos t)) e_acute_a) = (0x61, 1).
Proof.
  intros t tk.
  assert (HP : Peek t = ((tk, None), set_lookahead t tk)) by (vm_compute; reflexivity).
  destruct (Peek_token_of_source e_acute_a t tk _ (reach_Next _ _ (reach_new _)) HP)
    as (Hd & _).
  split; [exact HP | exact Hd].
Defined.

(** ** What the white-space loops skip *)

Lemma SkipWhite_Peek t : SkipWhite (snd (Peek t)) = SkipWhite t.
Proof. rewrite (SkipWhite_eq (snd (Peek t))), (SkipWhite_eq t), Peek_Peek. reflexivity. Qed.

Lemma advance_fields t tk :
  src (advance t tk) = src t /\
  (Lexeme tk <> 0x0A -> line (advance t tk) = line t /\ lastLinePos (advance t tk) = lastLinePos t).
Proof.
  unfold advance. destruct (Lexeme tk =? 10) eqn:E; simpl; split; auto; intros; lia.
Qed.

(** Where [SkipWhite] has stopped, and what it has left untouched. *)
Definition SkipWhite_stop (t t' : Tokenizer) : Prop :=
  src t' = src t /\
  (exists tk err, Peek t' = ((tk, err), t') /\
                  (err <> None \/ unicode.IsSpace (Lexeme tk) = false)).

Lemma SkipWhite_stop_below n :
  forall t, (pending t < n)%nat -> SkipWhite_stop t (SkipWhite t).
Proof.
  induction n as [|n IH]; intros t Hn; [lia|].
  rewrite SkipWhite_eq.
  pose proof (Peek_Peek t) as HPP. pose proof (Peek_src t) as Hsrc.
  destruct (Peek t) as [[tk err] t1] eqn:HP. cbn [snd] in HPP, Hsrc.
  destruct (negb (is_nil err) || negb (unicode.IsSpace (Lexeme tk))) eqn:Hstop.
  - split; [exact Hsrc|]. exists tk, err. split; [exact HPP|].
    apply orb_true_iff in Hstop as [Hn' | Hs].
    + left. destruct err; [discriminate | discriminate Hn'].
    + right. apply negb_true_iff. exact Hs.
  - apply orb_false_iff in Hstop as [Hnil _].
    apply negb_false_iff, is_nil_true in Hnil. subst err.
    pose proof (pending_Next_Peek _ _ _ HP) as Hlt.
    destruct (IH (snd (Next t1)) ltac:(lia)) as [Hs Hp].
    split; [|exact Hp]. rewrite Hs.
    replace t1 with (snd (Peek t)) by (rewrite HP; reflexivity).
    rewrite Next_after_Peek, (Next_ok _ _ _ HP). simpl.
    apply advance_fields.
Qed.

(** [SkipWhite] stops on a tokenizer whose next [Peek] fails or returns a
    token that is not white space, and that token is not consumed; it
    leaves the source as it was; a second [SkipWhite] changes nothing. *)
Theorem SkipWhite_stops_at_non_space (t : Tokenizer) :
  src (SkipWhite t) = src t /\
  (exists tk err,
     Peek (SkipWhite t) = ((tk, err), SkipWhite t) /\
     (err <> None \/ unicode.IsSpace (Lexeme tk) = false)) /\
  SkipWhite (SkipWhite t) = SkipWhite t.
Proof.
  destruct (SkipWhite_stop_below (S (pending t)) t ltac:(lia)) as [Hsrc (tk & err & HP & Hstop)].
  split; [exact Hsrc|]. split; [eauto|].
  rewrite (SkipWhite_eq (SkipWhite t)), HP.
  destruct Hstop as [He | Hs].
  - destruct err; [reflexivity | congruence].
  - rewrite Hs. simpl. rewrite orb_true_r. reflexivity.
Qed.

Definition SkipWhiteUntilLine_stop (t t' : Tokenizer) : Prop :=
  src t' = src t /\ line t' = line t /\ lastLinePos t' = lastLinePos t /\
  (exists tk err, Peek t' = ((tk, err), t') /\
                  (err <> None \/ Lexeme tk = 0x0A \/ unicode.IsSpace (Lexeme tk) = false)) /\
  SkipWhite t' = SkipWhite t.

Lemma SkipWhiteUntilLine_stop_below n :
  forall t, (pending t < n)%nat -> SkipWhiteUntilLine_stop t (SkipWhiteUntilLine t).
Proof.
  induction n as [|n IH]; intros t Hn; [lia|].
  rewrite SkipWhiteUntilLine_eq.
  pose proof (Peek_Peek t) as HPP. pose proof (Peek_src t) as Hsrc.
  pose proof (Peek_counters t) as Hcnt. pose proof (SkipWhite_Peek t) as HSP.
  assert (Hll : lastLinePos (snd (Peek t)) = lastLinePos t)
    by (pose proof (Peek_cases t) as Hc; inversion Hc; reflexivity).
  destruct (Peek t) as [[tk err] t1] eqn:HP. cbn [snd] in HPP, Hsrc, Hcnt, HSP, Hll.
  destruct (negb (is_nil err) || (Lexeme tk =? 10) || negb (unicode.IsSpace (Lexeme tk)))
    eqn:Hstop.
  - split; [exact Hsrc|]. split; [unfold counters in Hcnt; congruence|].
    split; [exact Hll|]. split; [|exact HSP].
    exists tk, err. split; [exact HPP|].
    apply orb_true_iff in Hstop as [Hstop | Hs].
    + apply orb_true_iff in Hstop as [Hn' | Hnl].
      * left. destruct err; [discriminate | discriminate Hn'].
      * right. left. lia.
    + right. right. apply negb_true_iff. exact Hs.
  - apply orb_false_iff in Hstop as [Hstop Hsp].
    apply orb_false_iff in Hstop as [Hnil Hnl].
    apply negb_false_iff, is_nil_true in Hnil. subst err.
    apply negb_false_iff in Hsp.
    pose proof (pending_Next_Peek _ _ _ HP) as Hlt.
    destruct (IH (snd (Next t1)) ltac:(lia)) as (Hs & Hl & Hlp & Hp & Hsw).
    assert (HN : snd (Next t1) = advance t tk).
    { replace t1 with (snd (Peek t)) by (rewrite HP; reflexivity).
      rewrite Next_after_Peek, (Next_ok _ _ _ HP). reflexivity. }
    destruct (advance_fields t tk) as [Ha1 Ha2].
    destruct (Ha2 ltac:(lia)) as [Ha3 Ha4].
    rewrite HN in *.
    split; [congruence|]. split; [congruence|]. split; [congruence|].
    split; [exact Hp|].
    rewrite Hsw. rewrite (SkipWhite_eq t), HP. cbn [is_nil negb orb].
    rewrite Hsp. cbn [negb]. rewrite <- HN. reflexivity.
Qed.

(** [SkipWhiteUntilLine] never leaves the line: the line counter and the
    start of the line are as before, and so is the source.  It stops where
    the next [Peek] fails or returns a line feed or a token that is not
    white space, that token unconsumed.  What it skips [SkipWhite] would
    have skipped: [SkipWhite] after it ends where [SkipWhite] alone ends. *)
Theorem SkipWhiteUntilLine_stays_on_line (t : Tokenizer) :
  src (SkipWhiteUntilLine t) = src t /\
  line (SkipWhiteUntilLine t) = line t /\
  lastLinePos (SkipWhiteUntilLine t) = lastLinePos t /\
  (exists tk err,
     Peek (SkipWhiteUntilLine t) = ((tk, err), SkipWhiteUntilLine t) /\
     (err <> None \/ Lexeme tk = 0x0A \/ unicode.IsSpace (Lexeme tk) = false)) /\
  SkipWhite (SkipWhiteUntilLine t) = SkipWhite t.
Proof. apply (SkipWhiteUntilLine_stop_below (S (pending t))). lia. Qed.

(** * Further properties of the parser *)

(** ** A map or an error *)

Section ResultShape.

Context `{UnicodeTables}.

Lemma parseItem_close_shape name r :
  (exists m, fst (parseItem_close name r) = (Some m, None)) \/
  (exists e, fst (parseItem_close name r) = (None, Some e)).
Proof.
  destruct r as [[def [e|]] t]; cbn [parseItem_close]; [right; eauto|].
  destruct (Next (SkipWhiteUntilLine t)) as [[tk err] t1].
  destruct (negb (is_nil err) && negb (is_io_EOF err)) eqn:Herr.
  - right. destruct err as [e|]; [eauto | discriminate Herr].
  - destruct (negb (is_io_EOF err) && negb (Lexeme tk =? 59) && negb (Lexeme tk =? 10));
      [right | left]; eauto.
Qed.

Lemma parseItem_shape pl t r :
  parseItem pl t = Some r ->
  (exists m, fst r = (Some m, None)) \/ (exists e, fst r = (None, Some e)).
Proof.
  rewrite parseItem_as_close.
  destruct (parseName t) as [[name [e|]] t1].
  - intros Hr; inversion Hr; subst. right. eauto.
  - destruct (parseDef pl (SkipWhiteUntilLine t1)) as [r'|]; [|discriminate].
    intros Hr; inversion Hr; subst. apply parseItem_close_shape.
Qed.

Lemma parseList_loop_shape n :
  forall anns t r, parseList_loop n anns t = Some r ->
  (exists m, fst r = (Some m, None)) \/
  (exists e, fst r = (None, Some e) /\ e <> io_EOF).
Proof.
  induction n as [|n IH]; intros anns t r Hr; [discriminate|].
  rewrite parseList_loop_S in Hr. unfold parseList_turn in Hr.
  destruct (Peek (SkipWhite t)) as [[tk err] t1].
  destruct (negb (is_nil err) && negb (is_io_EOF err)) eqn:Herr.
  { inversion Hr; subst. right. destruct err as [e|]; [|discriminate Herr].
    exists e. split; [reflexivity|]. intros ->. discriminate Herr. }
  destruct (is_io_EOF err
            || (negb (Lexeme tk =? 40) && negb (Lexeme tk =? 95)
                && negb (unicode.IsLetter (Lexeme tk)))).
  { inversion Hr; subst. left. eauto. }
  destruct (parseItem (parseList_loop n ∅) t1) as [[[itemAnns [e|]] t2]|]; [| |discriminate].
  - right. destruct (is_io_EOF (Some e)) eqn:He; inversion Hr; subst.
    + exists EOF. split; [reflexivity | discriminate].
    + exists e. split; [reflexivity|]. intros ->. discriminate He.
  - eapply IH; eauto.
Qed.

(** [Parse] returns a map and no error, or no map and an error: never
    both, never neither.  The error is never [io.EOF]: where the tokenizer
    runs out of input inside an Item, [parseList] returns the package's own
    [EOF] instead. *)
Theorem Parse_map_or_error (s : string) (m : option smap) (e : option error) :
  Parse s = Some (m, e) ->
  (e = None /\ exists anns, m = Some anns) \/
  (m = None /\ exists err, e = Some err /\ err <> io_EOF).
Proof.
  unfold Parse, parseList.
  destruct (parseList_loop (S (pending (NewTokenizer s))) ∅ (NewTokenizer s))
    as [[r t]|] eqn:Hr; [|discriminate].
  intros Heq; inversion Heq; subst r.
  destruct (parseList_loop_shape _ _ _ _ Hr) as [[anns Ha] | (err & Ha & Hne)];
    cbn [fst] in Ha; inversion Ha; subst; [left | right]; eauto.
Qed.

End ResultShape.

Lemma Parse_map_or_error_witness :
  for_all_tables (fun U =>
    Parse "Foo" = Some (None, Some EOF) /\
    exists err, Some EOF = Some err /\ err <> io_EOF).
Proof.
  constructor. intros U.
  assert (HP : Parse "Foo" = Some (None, Some EOF)) by (vm_compute; reflexivity).
  destruct (Parse_map_or_error "Foo" None (Some EOF) HP) as [[Hn _] | [_ Herr]].
  - discriminate Hn.
  - split; [exact HP | exact Herr].
Defined.

(** ** Errors point into the source *)

(** The position an error carries is a position of the source [s]: an
    [UnexpectedTokenError] carries a token of the source; a [UTF8Error]
    carries a line and a column, at least 1, of a byte offset at which the
    source decodes to [utf8.RuneError]. *)
Definition error_in_source (s : string) (e : error) : Prop :=
  match e with
  | io_EOF | EOF => True
  | UTF8Error l c =>
    exists bp, 0 <= bp < len s /\ 1 <= l <= bp + 1 /\ 1 <= c <= bp + 1 /\
               fst (utf8.DecodeRuneInString (string_from (Z.to_nat bp) s)) = utf8.RuneError
  | UnexpectedTokenError tk => source_token s tk
  end.

(** The result [r] of a grammar function leaves a tokenizer the program
    can build on [s], and its error, if any, points into [s]. *)
Definition good {A : Type} (s : string) (r : parsed A) : Prop :=
  reachable s (snd r) /\ forall e, snd (fst r) = Some e -> error_in_source s e.

Lemma Peek_good s t : reachable s t -> good s (Peek t).
Proof.
  intros Hreach. split; [apply reach_Peek; exact Hreach|].
  intros e He.
  pose proof (reachable_inv _ _ Hreach) as [Hsrc Hb [Hr1 Hr2] Hl Hla].
  pose proof (Peek_cases t) as Hc.
  inversion Hc as [Hsz Heq | Hsz Hend Heq | size Hsz Hlt Hd Heq | r size Hsz Hlt Hd Hr Hsize Hfit Heq];
    rewrite <- Heq in He; cbn [fst snd] in He; inversion He; subst e.
  - exact I.
  - simpl. exists (bytePos t). unfold rest_of in Hd. rewrite Hsrc in *.
    rewrite Hd. unfold col. repeat split; lia.
Qed.

Lemma Next_good s t : reachable s t -> good s (Next t).
Proof.
  intros Hreach. split; [apply reach_Next; exact Hreach|].
  intros e He. destruct (Peek_good s t Hreach) as [_ Herr].
  destruct (Peek t) as [[tk [e0|]] t1] eqn:HP.
  - rewrite (Next_err _ _ _ _ HP) in He. cbn [fst snd] in He. inversion He; subst.
    apply Herr. reflexivity.
  - rewrite (Next_ok _ _ _ HP) in He. discriminate He.
Qed.

Lemma Next_source_token s t tk t1 :
  reachable s t -> Next t = ((tk, None), t1) -> source_token s tk.
Proof.
  intros Hreach HN. apply Next_inv_ok in HN as [HP _].
  apply (Peek_source_token _ _ _ _ Hreach HP).
Qed.

Lemma reachable_SkipWhite_loop s n t :
  reachable s t -> reachable s (SkipWhite_loop n t).
Proof.
  revert t. induction n as [|n IH]; intros t Hreach; simpl; [exact Hreach|].
  pose proof (reach_Peek _ _ Hreach) as HrP.
  destruct (Peek t) as [[tk err] t1]. cbn [snd] in HrP.
  destruct (negb (is_nil err) || negb (unicode.IsSpace (Lexeme tk))); [exact HrP|].
  apply IH, reach_Next, HrP.
Qed.

Lemma reachable_SkipWhite s t : reachable s t -> reachable s (SkipWhite t).
Proof. apply reachable_SkipWhite_loop. Qed.

Lemma reachable_SkipWhiteUntilLine_loop s n t :
  reachable s t -> reachable s (SkipWhiteUntilLine_loop n t).
Proof.
  revert t. induction n as [|n IH]; intros t Hreach; simpl; [exact Hreach|].
  pose proof (reach_Peek _ _ Hreach) as HrP.
  destruct (Peek t) as [[tk err] t1]. cbn [snd] in HrP.
  destruct (negb (is_nil err) || (Lexeme tk =? 10) || negb (unicode.IsSpace (Lexeme tk)));
    [exact HrP|].
  apply IH, reach_Next, HrP.
Qed.

Lemma reachable_SkipWhiteUntilLine s t :
  reachable s t -> reachable s (SkipWhiteUntilLine t).
Proof. apply reachable_SkipWhiteUntilLine_loop. Qed.

Lemma expect_good s r t :
  reachable s t ->
  reachable s (snd (expect r t)) /\
  forall e, fst (expect r t) = Some e -> error_in_source s e.
Proof.
  intros Hreach. unfold expect.
  destruct (Next_good s t Hreach) as [HrN Herr].
  pose proof (Next_source_token s t) as Htok.
  destruct (Next t) as [[tk [e0|]] t1]; cbn [fst snd] in *.
  - split; [exact HrN|]. intros e He. inversion He; subst. apply Herr. reflexivity.
  - destruct (negb (Lexeme tk =? r)); cbn [fst snd]; split; try exact HrN.
    + intros e He. inversion He; subst. simpl. eapply Htok; eauto.
    + intros e He. discriminate He.
Qed.

Section GoodResults.

Context `{UnicodeTables}.

Variable s : string.

Lemma parseIdent_loop_good n id t :
  reachable s t -> good s (parseIdent_loop n id t).
Proof.
  revert id t. induction n as [|n IH]; intros id t Hreach; simpl.
  { split; [exact Hreach | intros e He; discriminate He]. }
  destruct (Peek_good s t Hreach) as [HrP Herr].
  destruct (Peek t) as [[tk [e0|]] t1]; cbn [fst snd] in *.
  { split; [exact HrP|]. intros e He. apply Herr. exact He. }
  destruct (negb (unicode.IsLetter (Lexeme tk)) && negb (unicode.IsDigit (Lexeme tk))).
  { split; [exact HrP | intros e He; discriminate He]. }
  apply IH, reach_Next, HrP.
Qed.

Lemma parseIdent_good t : reachable s t -> good s (parseIdent t).
Proof.
  intros Hreach. unfold parseIdent.
  destruct (Next_good s t Hreach) as [HrN Herr].
  destruct (Next t) as [[tk [e0|]] t1]; cbn [fst snd] in *.
  - split; [exact HrN|]. intros e He. apply Herr. exact He.
  - apply parseIdent_loop_good. exact HrN.
Qed.

Lemma parseType_loop_good n typ t :
  reachable s t -> good s (parseType_loop n typ t).
Proof.
  revert typ t. induction n as [|n IH]; intros typ t Hreach; simpl.
  { split; [exact Hreach | intros e He; discriminate He]. }
  destruct (Peek_good s t Hreach) as [HrP Herr].
  destruct (Peek t) as [[tk err] t1]; cbn [fst snd] in *.
  destruct (negb (is_nil err) && negb (is_io_EOF err)).
  { split; [exact HrP|]. intros e He. apply Herr. exact He. }
  destruct ((Lexeme tk =? 10) || (Lexeme tk =? 59) || is_io_EOF err).
  { split; [exact HrP | intros e He; discriminate He]. }
  apply IH, reach_Next, HrP.
Qed.

Lemma parseType_good t : reachable s t -> good s (parseType t).
Proof.
  intros Hreach. unfold parseType.
  destruct (Next_good s t Hreach) as [HrN Herr].
  pose proof (Next_source_token s t) as Htok.
  destruct (Next t) as [[tk [e0|]] t1]; cbn [fst snd] in *.
  - split; [exact HrN|]. intros e He. apply Herr. exact He.
  - destruct ((Lexeme tk =? 123) || (Lexeme tk =? 10) || (Lexeme tk =? 59)).
    + split; [exact HrN|]. intros e He. inversion He; subst. simpl. eapply Htok; eauto.
    + apply parseType_loop_good. exact HrN.
Qed.

Lemma parseReceiver_good t : reachable s t -> good s (parseReceiver t).
Proof.
  intros Hreach. unfold parseReceiver.
  pose proof (reachable_SkipWhite _ _ (reach_Next _ _ Hreach)) as H1.
  destruct (expect_good s 42 _ H1) as [H2 He2].
  destruct (expect 42 (SkipWhite (snd (Next t)))) as [[e0|] t1]; cbn [fst snd] in *.
  { split; [exact H2|]. intros e He. inversion He; subst. apply He2. reflexivity. }
  destruct (parseIdent_good _ (reachable_SkipWhite _ _ H2)) as [H3 He3].
  destruct (parseIdent (SkipWhite t1)) as [[id [e0|]] t2]; cbn [fst snd] in *.
  { split; [exact H3|]. intros e He. apply He3. exact He. }
  destruct (expect_good s 41 _ (reachable_SkipWhite _ _ H3)) as [H4 He4].
  destruct (expect 41 (SkipWhite t2)) as [[e0|] t3]; cbn [fst snd] in *.
  - split; [exact H4|]. intros e He. inversion He; subst. apply He4. reflexivity.
  - split; [exact H4 | intros e He; discriminate He].
Qed.

Lemma parseName_good t : reachable s t -> good s (parseName t).
Proof.
  intros Hreach. unfold parseName.
  destruct (Peek_good s t Hreach) as [HrP Herr].
  pose proof (Peek_source_token s t) as Htok.
  destruct (Peek t) as [[tk [e0|]] t1]; cbn [fst snd] in *.
  { split; [exact HrP|]. intros e He. apply Herr. exact He. }
  destruct (Lexeme tk =? 40); [apply parseReceiver_good; exact HrP|].
  destruct ((Lexeme tk =? 95) || unicode.IsLetter (Lexeme tk));
    [apply parseIdent_good; exact HrP|].
  split; [exact HrP|]. intros e He. inversion He; subst. simpl.
  eapply Htok; eauto.
Qed.

Lemma parseDef_close_good r : good s r -> good s (parseDef_close r).
Proof.
  destruct r as [[anns [e0|]] t]. 
  { intros [Hr He]. split; [exact Hr|]. intros e Heq. apply He. exact Heq. }
  intros [Hr _]. cbn [parseDef_close snd] in *.
  destruct (expect_good s 125 _ (reachable_SkipWhite _ _ Hr)) as [H1 He1].
  destruct (expect 125 (SkipWhite t)) as [[e0|] t1]; cbn [fst snd] in *.
  - split; [exact H1|]. intros e He. inversion He; subst. apply He1. reflexivity.
  - split; [exact H1 | intros e He; discriminate He].
Qed.

Lemma parseItem_close_good name r : good s r -> good s (parseItem_close name r).
Proof.
  destruct r as [[def [e0|]] t].
  { intros [Hr He]. split; [exact Hr|]. intros e Heq. apply He. exact Heq. }
  intros [Hr _]. cbn [parseItem_close snd] in *.
  pose proof (reachable_SkipWhiteUntilLine _ _ Hr) as Hr'.
  destruct (Next_good s _ Hr') as [H1 He1].
  pose proof (Next_source_token s (SkipWhiteUntilLine t)) as Htok.
  destruct (Next (SkipWhiteUntilLine t)) as [[tk err] t1]; cbn [fst snd] in *.
  destruct (negb (is_nil err) && negb (is_io_EOF err)) eqn:Herr.
  { split; [exact H1|]. intros e He. apply He1. exact He. }
  destruct (negb (is_io_EOF err) && negb (Lexeme tk =? 59) && negb (Lexeme tk =? 10)) eqn:Hterm.
  - split; [exact H1|]. intros e He. inversion He; subst. simpl.
    destruct err as [e0|].
    + destruct e0; simpl in Herr, Hterm; discriminate.
    + eapply Htok; eauto.
  - split; [exact H1 | intros e He; discriminate He].
Qed.

Section WithList.

Variable pl : Tokenizer -> option (parsed (option smap)).

Hypothesis pl_good : forall u r, reachable s u -> pl u = Some r -> good s r.

Lemma parseDef_good t r : reachable s t -> parseDef pl t = Some r -> good s r.
Proof.
  intros Hreach. unfold parseDef.
  destruct (Peek_good s t Hreach) as [HrP Herr].
  destruct (Peek t) as [[tk [e0|]] t1]; cbn [fst snd] in *.
  { intros Hr; inversion Hr; subst. split; [exact HrP|].
    intros e He. apply Herr. exact He. }
  destruct (Lexeme tk =? 123).
  - pose proof (reachable_SkipWhite _ _ (reach_Next _ _ HrP)) as H1.
    destruct (pl (SkipWhite (snd (Next t1)))) as [r'|] eqn:Hpl; [|discriminate].
    pose proof (parseDef_close_good r' (pl_good _ _ H1 Hpl)) as Hg.
    destruct r' as [[anns [e0|]] t2]; cbn [parseDef_close] in Hg.
    + intros Hr; inversion Hr; subst. exact Hg.
    + destruct (expect 125 (SkipWhite t2)) as [[e0|] t3];
        intros Hr; inversion Hr; subst; exact Hg.
  - destruct (parseType_good t1 HrP) as [H1 He1].
    destruct (parseType t1) as [[typ [e0|]] t2]; cbn [fst snd] in *;
      intros Hr; inversion Hr; subst; (split; [exact H1|]).
    + intros e He. apply He1. exact He.
    + intros e He. discriminate He.
Qed.

Lemma parseItem_good t r : reachable s t -> parseItem pl t = Some r -> good s r.
Proof.
  intros Hreach. rewrite parseItem_as_close.
  destruct (parseName_good t Hreach) as [H1 He1].
  destruct (parseName t) as [[name [e0|]] t1]; cbn [fst snd] in *.
  { intros Hr; inversion Hr; subst. split; [exact H1|].
    intros e He. apply He1. exact He. }
  destruct (parseDef pl (SkipWhiteUntilLine t1)) as [r'|] eqn:Hdef; [|discriminate].
  intros Hr; inversion Hr; subst.
  apply parseItem_close_good.
  eapply parseDef_good; [|exact Hdef]. apply reachable_SkipWhiteUntilLine. exact H1.
Qed.

End WithList.

Lemma parseList_loop_good n :
  forall anns t r, reachable s t -> parseList_loop n anns t = Some r -> good s r.
Proof.
  induction n as [|n IH]; intros anns t r Hreach Hr; [discriminate|].
  rewrite parseList_loop_S in Hr. unfold parseList_turn in Hr.
  destruct (Peek_good s _ (reachable_SkipWhite _ _ Hreach)) as [HrP Herr].
  destruct (Peek (SkipWhite t)) as [[tk err] t1]; cbn [fst snd] in *.
  destruct (negb (is_nil err) && negb (is_io_EOF err)).
  { inversion Hr; subst. split; [exact HrP|]. intros e He. apply Herr. exact He. }
  destruct (is_io_EOF err
            || (negb (Lexeme tk =? 40) && negb (Lexeme tk =? 95)
                && negb (unicode.IsLetter (Lexeme tk)))).
  { inversion Hr; subst. split; [exact HrP | intros e He; discriminate He]. }
  destruct (parseItem (parseList_loop n ∅) t1) as [[[itemAnns [e0|]] t2]|] eqn:Hitem;
    [| |discriminate].
  - destruct (parseItem_good (parseList_loop n ∅) (fun u r' => IH ∅ u r') _ _ HrP Hitem)
      as [H2 He2]. cbn [fst snd] in *.
    destruct (is_io_EOF (Some e0)) eqn:Heof; inversion Hr; subst; (split; [exact H2|]).
    + intros e He. inversion He; subst. exact I.
    + intros e He. apply He2. exact He.
  - destruct (parseItem_good (parseList_loop n ∅) (fun u r' => IH ∅ u r') _ _ HrP Hitem)
      as [H2 _]. cbn [snd] in H2.
    eapply IH; eauto.
Qed.


End GoodResults.


(** ** The text of a token *)

Lemma byte_val_range c : 0 <= byte_val c < 256.
Proof.
  unfold byte_val. pose proof (N_ascii_bounded c) as Hb. lia.
Qed.

Lemma byte_of_val c : byte_of (byte_val c) = c.
Proof. unfold byte_of, byte_val. rewrite N2Z.id. apply ascii_N_embedding. Qed.

Lemma land_shiftl_low y k a : 0 <= k -> 0 <= a < 2 ^ k -> Z.land (Z.shiftl y k) a = 0.
Proof.
  intros Hk Ha. apply Z.bits_inj'. intros n Hn.
  rewrite Z.land_spec, Z.bits_0.
  destruct (Z_lt_le_dec n k) as [Hlt|Hle].
  - rewrite Z.shiftl_spec_low by lia. reflexivity.
  - rewrite <- (Z.mod_small a (2 ^ k)) by lia.
    rewrite Z.mod_pow2_bits_high by lia. apply andb_false_r.
Qed.

Lemma lor_shiftl_add y k a :
  0 <= k -> 0 <= a < 2 ^ k -> Z.lor (Z.shiftl y k) a = y * 2 ^ k + a.
Proof.
  intros Hk Ha. pose proof (land_shiftl_low y k a Hk Ha) as Hl.
  rewrite <- Z.lxor_lor by exact Hl.
  rewrite <- Z.add_nocarry_lxor by exact Hl.
  rewrite Z.shiftl_mul_pow2 by lia. reflexivity.
Qed.

(** [x | a] is [x + a] when [x] is a multiple of [2^k] and [a] is below
    [2^k]. *)
Lemma lor_add_low k x a :
  0 <= k -> x mod 2 ^ k = 0 -> 0 <= a < 2 ^ k -> Z.lor x a = x + a.
Proof.
  intros Hk Hx Ha.
  assert (Hpos : 0 < 2 ^ k) by (apply Z.pow_pos_nonneg; lia).
  assert (Hxe : x = Z.shiftl (x / 2 ^ k) k).
  { rewrite Z.shiftl_mul_pow2 by lia.
    pose proof (Z.div_mod x (2 ^ k)) as Hdm. lia. }
  rewrite Hxe at 1. rewrite lor_shiftl_add by assumption.
  pose proof (Z.div_mod x (2 ^ k)) as Hdm. lia.
Qed.

Ltac arith := Z.div_mod_to_equations; lia.

Lemma land_low b k : 0 <= k -> Z.land b (2 ^ k - 1) = b mod 2 ^ k.
Proof.
  intros Hk. rewrite <- Z.land_ones by exact Hk. f_equal.
  rewrite Z.ones_equiv. lia.
Qed.

(** ** Decoding and converting back *)

Lemma first_cases b :
  0 <= b < 256 ->
  (b < 0x80 /\ utf8.first b = utf8.as_) \/
  utf8.first b = utf8.xx \/
  (0xC2 <= b <= 0xDF /\ utf8.first b = utf8.s1) \/
  (b = 0xE0 /\ utf8.first b = utf8.s2) \/
  ((0xE1 <= b <= 0xEC \/ 0xEE <= b <= 0xEF) /\ utf8.first b = utf8.s3) \/
  (b = 0xED /\ utf8.first b = utf8.s4) \/
  (b = 0xF0 /\ utf8.first b = utf8.s5) \/
  (0xF1 <= b <= 0xF3 /\ utf8.first b = utf8.s6) \/
  (b = 0xF4 /\ utf8.first b = utf8.s7).
Proof.
  intros Hb. unfold utf8.first.
  repeat match goal with
  | |- context [if ?c then _ else _] => destruct c eqn:?
  end; try (left; split; [lia | reflexivity]);
  try (right; left; reflexivity);
  try (right; right; left; split; [lia | reflexivity]);
  try (right; right; right; left; split; [lia | reflexivity]);
  try (right; right; right; right; left; split; [lia | reflexivity]);
  try (right; right; right; right; right; left; split; [lia | reflexivity]);
  try (right; right; right; right; right; right; left; split; [lia | reflexivity]);
  try (right; right; right; right; right; right; right; left; split; [lia | reflexivity]);
  try (right; right; right; right; right; right; right; right; split; [lia | reflexivity]).
Qed.

Lemma land_1F b : Z.land b 0x1F = b mod 32.
Proof. apply (land_low b 5). lia. Qed.
Lemma land_0F b : Z.land b 0x0F = b mod 16.
Proof. apply (land_low b 4). lia. Qed.
Lemma land_07 b : Z.land b 0x07 = b mod 8.
Proof. apply (land_low b 3). lia. Qed.
Lemma land_3F b : Z.land b 0x3F = b mod 64.
Proof. apply (land_low b 6). lia. Qed.

Lemma shiftl_6 y : Z.shiftl y 6 = y * 64.
Proof. rewrite Z.shiftl_mul_pow2 by lia. reflexivity. Qed.
Lemma shiftl_12 y : Z.shiftl y 12 = y * 4096.
Proof. rewrite Z.shiftl_mul_pow2 by lia. reflexivity. Qed.
Lemma shiftl_18 y : Z.shiftl y 18 = y * 262144.
Proof. rewrite Z.shiftl_mul_pow2 by lia. reflexivity. Qed.
Lemma shiftr_6 y : Z.shiftr y 6 = y / 64.
Proof. rewrite Z.shiftr_div_pow2 by lia. reflexivity. Qed.
Lemma shiftr_12 y : Z.shiftr y 12 = y / 4096.
Proof. rewrite Z.shiftr_div_pow2 by lia. reflexivity. Qed.
Lemma shiftr_18 y : Z.shiftr y 18 = y / 262144.
Proof. rewrite Z.shiftr_div_pow2 by lia. reflexivity. Qed.

Lemma lor_add k p x a :
  0 <= k -> p = 2 ^ k -> x mod p = 0 -> 0 <= a < p -> Z.lor x a = x + a.
Proof. intros Hk ->. apply lor_add_low. exact Hk. Qed.

Lemma enc2 b0 b1 :
  0xC2 <= b0 <= 0xDF -> 0x80 <= b1 <= 0xBF ->
  let r := Z.lor (Z.shiftl (Z.land b0 utf8.mask2) 6) (Z.land b1 utf8.maskx) in
  0x80 <= r < 0x800 /\
  Z.lor 0xC0 (Z.shiftr r 6) = b0 /\
  Z.lor 0x80 (Z.land r utf8.maskx) = b1.
Proof.
  intros H0 H1 r. subst r. unfold utf8.mask2, utf8.maskx.
  rewrite !land_1F, !land_3F, shiftl_6.
  rewrite (lor_add 6 64) by (try reflexivity; arith).
  rewrite shiftr_6.
  rewrite (lor_add 5 32 0xC0) by (try reflexivity; arith).
  rewrite (lor_add 6 64 0x80) by (try reflexivity; arith).
  repeat split; arith.
Qed.

Lemma enc3 b0 b1 b2 :
  0xE0 <= b0 <= 0xEF -> 0x80 <= b1 <= 0xBF -> 0x80 <= b2 <= 0xBF ->
  (b0 = 0xE0 -> 0xA0 <= b1) -> (b0 = 0xED -> b1 <= 0x9F) ->
  let r := Z.lor (Z.lor (Z.shiftl (Z.land b0 utf8.mask3) 12)
                        (Z.shiftl (Z.land b1 utf8.maskx) 6))
                 (Z.land b2 utf8.maskx) in
  0x800 <= r < 0x10000 /\ ~ (0xD800 <= r <= 0xDFFF) /\
  Z.lor 0xE0 (Z.shiftr r 12) = b0 /\
  Z.lor 0x80 (Z.land (Z.shiftr r 6) utf8.maskx) = b1 /\
  Z.lor 0x80 (Z.land r utf8.maskx) = b2.
Proof.
  intros H0 H1 H2 HE0 HED r. subst r. unfold utf8.mask3, utf8.maskx.
  rewrite !land_0F, !land_3F, shiftl_6, shiftl_12.
  rewrite (lor_add 12 4096 (b0 mod 16 * 4096)) by (try reflexivity; arith).
  rewrite (lor_add 6 64 (b0 mod 16 * 4096 + b1 mod 64 * 64)) by (try reflexivity; arith).
  rewrite shiftr_6, shiftr_12.
  rewrite (lor_add 4 16 0xE0) by (try reflexivity; arith).
  rewrite !(lor_add 6 64 0x80) by (try reflexivity; arith).
  repeat split; arith.
Qed.

Lemma enc4 b0 b1 b2 b3 :
  0xF0 <= b0 <= 0xF4 -> 0x80 <= b1 <= 0xBF -> 0x80 <= b2 <= 0xBF -> 0x80 <= b3 <= 0xBF ->
  (b0 = 0xF0 -> 0x90 <= b1) -> (b0 = 0xF4 -> b1 <= 0x8F) ->
  let r := Z.lor (Z.lor (Z.lor (Z.shiftl (Z.land b0 utf8.mask4) 18)
                               (Z.shiftl (Z.land b1 utf8.maskx) 12))
                        (Z.shiftl (Z.land b2 utf8.maskx) 6))
                 (Z.land b3 utf8.maskx) in
  0x10000 <= r <= 0x10FFFF /\
  Z.lor 0xF0 (Z.shiftr r 18) = b0 /\
  Z.lor 0x80 (Z.land (Z.shiftr r 12) utf8.maskx) = b1 /\
  Z.lor 0x80 (Z.land (Z.shiftr r 6) utf8.maskx) = b2 /\
  Z.lor 0x80 (Z.land r utf8.maskx) = b3.
Proof.
  intros H0 H1 H2 H3 HF0 HF4 r. subst r. unfold utf8.mask4, utf8.maskx.
  rewrite !land_07, !land_3F, shiftl_6, shiftl_12, shiftl_18.
  rewrite (lor_add 18 262144 (b0 mod 8 * 262144)) by (try reflexivity; arith).
  rewrite (lor_add 12 4096 (b0 mod 8 * 262144 + b1 mod 64 * 4096))
    by (try reflexivity; arith).
  rewrite (lor_add 6 64 (b0 mod 8 * 262144 + b1 mod 64 * 4096 + b2 mod 64 * 64))
    by (try reflexivity; arith).
  rewrite shiftr_6, shiftr_12, shiftr_18.
  rewrite (lor_add 3 8 0xF0) by (try reflexivity; arith).
  rewrite !(lor_add 6 64 0x80) by (try reflexivity; arith).
  repeat split; arith.
Qed.

Lemma string_of_rune_1 r :
  0 <= r < 0x80 -> utf8.string_of_rune r = String (byte_of r) EmptyString.
Proof.
  intros Hr. unfold utf8.string_of_rune.
  assert (H1 : (0 <=? r) && (r <? 128) = true) by lia. rewrite H1. reflexivity.
Qed.

Lemma string_of_rune_2 r :
  0x80 <= r < 0x800 ->
  utf8.string_of_rune r =
  String (byte_of (Z.lor 0xC0 (Z.shiftr r 6)))
 (String (byte_of (Z.lor 0x80 (Z.land r utf8.maskx))) EmptyString).
Proof.
  intros Hr. unfold utf8.string_of_rune.
  assert (H1 : (0 <=? r) && (r <? 128) = false) by lia.
  assert (H2 : (0 <=? r) && (r <? 2048) = true) by lia.
  rewrite H1, H2. reflexivity.
Qed.

Lemma string_of_rune_3 r :
  0x800 <= r < 0x10000 -> ~ (0xD800 <= r <= 0xDFFF) ->
  utf8.string_of_rune r =
  String (byte_of (Z.lor 0xE0 (Z.shiftr r 12)))
 (String (byte_of (Z.lor 0x80 (Z.land (Z.shiftr r 6) utf8.maskx)))
 (String (byte_of (Z.lor 0x80 (Z.land r utf8.maskx))) EmptyString)).
Proof.
  intros Hr Hs. unfold utf8.string_of_rune, utf8.MaxRune, utf8.surrogateMin, utf8.surrogateMax.
  assert (H1 : (0 <=? r) && (r <? 128) = false) by lia.
  assert (H2 : (0 <=? r) && (r <? 2048) = false) by lia.
  assert (H3 : (r <? 0) || (1114111 <? r) || (55296 <=? r) && (r <=? 57343) = false) by lia.
  assert (H4 : (r <? 65536) = true) by lia.
  rewrite H1, H2, H3, H4. reflexivity.
Qed.

Lemma string_of_rune_4 r :
  0x10000 <= r <= 0x10FFFF ->
  utf8.string_of_rune r =
  String (byte_of (Z.lor 0xF0 (Z.shiftr r 18)))
 (String (byte_of (Z.lor 0x80 (Z.land (Z.shiftr r 12) utf8.maskx)))
 (String (byte_of (Z.lor 0x80 (Z.land (Z.shiftr r 6) utf8.maskx)))
 (String (byte_of (Z.lor 0x80 (Z.land r utf8.maskx))) EmptyString))).
Proof.
  intros Hr. unfold utf8.string_of_rune, utf8.MaxRune, utf8.surrogateMin, utf8.surrogateMax.
  assert (H1 : (0 <=? r) && (r <? 128) = false) by lia.
  assert (H2 : (0 <=? r) && (r <? 2048) = false) by lia.
  assert (H3 : (r <? 0) || (1114111 <? r) || (55296 <=? r) && (r <=? 57343) = false) by lia.
  assert (H4 : (r <? 65536) = false) by lia.
  rewrite H1, H2, H3, H4. reflexivity.
Qed.

(** The constants of a class of first bytes, computed. *)
Ltac class_consts K H :=
  let a := eval vm_compute in (utf8.as_ <=? K) in
  change (utf8.as_ <=? K) with a in H;
  let b := eval vm_compute in (Z.testbit K 0) in
  change (Z.testbit K 0) with b in H;
  let sz := eval vm_compute in (Z.land K 7) in
  change (Z.land K 7) with sz in H;
  let ar := eval vm_compute in (utf8.acceptRanges (Z.shiftr K 4)) in
  change (utf8.acceptRanges (Z.shiftr K 4)) with ar in H;
  change (2 <=? 2) with true in H; change (3 <=? 2) with false in H;
  change (4 <=? 2) with false in H; change (3 <=? 3) with true in H;
  change (4 <=? 3) with false in H;
  unfold utf8.locb, utf8.hicb in H;
  cbn [fst snd] in H.

Ltac decoded H :=
  repeat match type of H with
  | context [if ?b then _ else _] => destruct b eqn:?
  | context [match ?s with EmptyString => _ | String _ _ => _ end] => destruct s eqn:?
  end;
  inversion H; subst; try congruence.

Ltac bytes_eq :=
  repeat match goal with
  | E : ?e = byte_val ?c |- context [byte_of ?e] => rewrite E, (byte_of_val c)
  end; reflexivity.

(** A rune that [DecodeRuneInString] has decoded, [utf8.RuneError] apart,
    converts back to the very bytes it was decoded from. *)
Lemma DecodeRuneInString_string_of_rune x r size :
  utf8.DecodeRuneInString x = (r, size) -> r <> utf8.RuneError ->
  utf8.string_of_rune r = string_to (Z.to_nat size) x.
Proof.
  intros Hd Hr. destruct x as [|c0 x0]; [simpl in Hd; inversion Hd; congruence|].
  unfold utf8.DecodeRuneInString in Hd.
  pose proof (byte_val_range c0) as Hb0.
  destruct (first_cases _ Hb0)
    as [[H0 Hf]|[Hf|[[H0 Hf]|[[H0 Hf]|[[H0 Hf]|[[H0 Hf]|[[H0 Hf]|[[H0 Hf]|[H0 Hf]]]]]]]]];
    rewrite Hf in Hd.
  - class_consts utf8.as_ Hd. inversion Hd; subst.
    rewrite string_of_rune_1 by lia. simpl. rewrite byte_of_val. reflexivity.
  - class_consts utf8.xx Hd. inversion Hd; subst. congruence.
  - class_consts utf8.s1 Hd. decoded Hd.
    pose proof (byte_val_range a) as Hb1.
    destruct (enc2 (byte_val c0) (byte_val a)) as (Hrange & E0 & E1); [lia | lia |].
    rewrite string_of_rune_2 by exact Hrange. simpl. bytes_eq.
  - class_consts utf8.s2 Hd. decoded Hd.
    destruct (enc3 (byte_val c0) (byte_val a) (byte_val a0)) as (Hrange & Hs & E0 & E1 & E2);
      try lia.
    rewrite string_of_rune_3 by assumption. simpl. bytes_eq.
  - class_consts utf8.s3 Hd. decoded Hd.
    destruct (enc3 (byte_val c0) (byte_val a) (byte_val a0)) as (Hrange & Hs & E0 & E1 & E2);
      try lia.
    rewrite string_of_rune_3 by assumption. simpl. bytes_eq.
  - class_consts utf8.s4 Hd. decoded Hd.
    destruct (enc3 (byte_val c0) (byte_val a) (byte_val a0)) as (Hrange & Hs & E0 & E1 & E2);
      try lia.
    rewrite string_of_rune_3 by assumption. simpl. bytes_eq.
  - class_consts utf8.s5 Hd. decoded Hd.
    destruct (enc4 (byte_val c0) (byte_val a) (byte_val a0) (byte_val a1))
      as (Hrange & E0 & E1 & E2 & E3); try lia.
    rewrite string_of_rune_4 by assumption. simpl. bytes_eq.
  - class_consts utf8.s6 Hd. decoded Hd.
    destruct (enc4 (byte_val c0) (byte_val a) (byte_val a0) (byte_val a1))
      as (Hrange & E0 & E1 & E2 & E3); try lia.
    rewrite string_of_rune_4 by assumption. simpl. bytes_eq.
  - class_consts utf8.s7 Hd. decoded Hd.
    destruct (enc4 (byte_val c0) (byte_val a) (byte_val a0) (byte_val a1))
      as (Hrange & E0 & E1 & E2 & E3); try lia.
    rewrite string_of_rune_4 by assumption. simpl. bytes_eq.
Qed.

(** [s[a:b]] for [0 <= a <= b <= len(s)]. *)
Definition slice (s : string) (a b : Z) : string :=
  string_to (Z.to_nat (b - a)) (string_from (Z.to_nat a) s).

Lemma string_to_add n m x :
  string_to (n + m) x = string_to n x +:+ string_to m (string_from n x).
Proof.
  revert x. induction n as [|n IH]; intros x.
  - simpl. destruct m, x; reflexivity.
  - destruct x as [|c x].
    + simpl. destruct m; reflexivity.
    + simpl string_to. simpl string_from. rewrite IH. reflexivity.
Qed.

Lemma slice_empty s a : slice s a a = EmptyString.
Proof.
  unfold slice. rewrite Z.sub_diag. simpl. destruct (string_from (Z.to_nat a) s); reflexivity.
Qed.

Lemma slice_app s a b c :
  0 <= a <= b -> b <= c -> slice s a b +:+ slice s b c = slice s a c.
Proof.
  intros Hab Hbc. unfold slice.
  replace (Z.to_nat b) with (Z.to_nat a + Z.to_nat (b - a))%nat by lia.
  rewrite string_from_add.
  replace (Z.to_nat (c - a)) with (Z.to_nat (b - a) + Z.to_nat (c - b))%nat by lia.
  rewrite string_to_add. reflexivity.
Qed.

Lemma source_token_text s tk :
  source_token s tk ->
  utf8.string_of_rune (Lexeme tk) = slice s (BytePos tk) (BytePos tk + Size tk).
Proof.
  intros (Hd & Hne & _). unfold slice.
  replace (BytePos tk + Size tk - BytePos tk) with (Size tk) by lia.
  apply DecodeRuneInString_string_of_rune; assumption.
Qed.

(** The conversion [string(tk.Lexeme)], which the grammar functions append
    to the text they build, gives back the bytes of the source that the
    token was decoded from: [src[BytePos : BytePos+Size]]. *)
Theorem token_text_is_source_bytes (s : string) (t : Tokenizer) (tk : Token) (t1 : Tokenizer) :
  reachable s t ->
  Peek t = ((tk, None), t1) ->
  utf8.string_of_rune (Lexeme tk) = slice s (bytePos t) (bytePos t + Size tk).
Proof.
  intros Hreach HP.
  destruct (Peek_source_token _ _ _ _ Hreach HP) as (Htok & Hbp & _).
  rewrite <- Hbp. apply source_token_text. exact Htok.
Qed.

Lemma token_text_is_source_bytes_witness :
  let t := NewTokenizer e_acute_a in
  let tk := mkToken 0xE9 1 1 2 0 0 in
  Peek t = ((tk, None), set_lookahead t tk) /\
  utf8.string_of_rune 0xE9 = slice e_acute_a 0 2.
Proof.
  intros t tk.
  assert (HP : Peek t = ((tk, None), set_lookahead t tk)) by (vm_compute; reflexivity).
  split; [exact HP|].
  apply (token_text_is_source_bytes e_acute_a t tk _ (reach_new _) HP).
Defined.

Section Verbatim.

Context `{UnicodeTables}.

Variable s : string.

Lemma advance_bytePos t tk : bytePos (advance t tk) = bytePos t + Size tk.
Proof. unfold advance. destruct (Lexeme tk =? 10); reflexivity. Qed.

Lemma Peek_bytePos t : bytePos (snd (Peek t)) = bytePos t.
Proof. pose proof (Peek_counters t) as Hc. unfold counters in Hc. congruence. Qed.

(** One token consumed: the text grows by the token's bytes. *)
Lemma Next_text t tk t1 :
  reachable s t -> Next t = ((tk, None), t1) ->
  reachable s t1 /\ 0 <= bytePos t /\
  bytePos t1 = bytePos t + Size tk /\ 1 <= Size tk /\
  utf8.string_of_rune (Lexeme tk) = slice s (bytePos t) (bytePos t1).
Proof.
  intros Hreach HN.
  assert (Hr1 : reachable s t1)
    by (replace t1 with (snd (Next t)) by (rewrite HN; reflexivity); apply reach_Next, Hreach).
  apply Next_inv_ok in HN as [HP ->].
  destruct (Peek_source_token _ _ _ _ Hreach HP) as (Htok & Hbp & _).
  pose proof (source_token_text _ _ Htok) as Htxt.
  destruct Htok as (_ & _ & Hsz & Hb0 & _).
  rewrite advance_bytePos. rewrite Hbp in *.
  repeat split; try assumption; lia.
Qed.

Lemma parseIdent_loop_text n :
  forall id t id' t',
  reachable s t ->
  parseIdent_loop n id t = ((id', None), t') ->
  id' = id +:+ slice s (bytePos t) (bytePos t') /\ 0 <= bytePos t <= bytePos t'.
Proof.
  induction n as [|n IH]; intros id t id' t' Hreach Hr; simpl in Hr.
  { inversion Hr; subst. rewrite slice_empty, append_empty_r.
    pose proof (reachable_inv _ _ Hreach) as [_ Hb _ _ _]. split; [reflexivity | lia]. }
  pose proof (reachable_inv _ _ Hreach) as [_ Hb _ _ _].
  pose proof (Peek_bytePos t) as Hpb. pose proof (reach_Peek _ _ Hreach) as HrP.
  destruct (Peek t) as [[tk [e|]] t1] eqn:HP; [discriminate|]. cbn [snd] in Hpb, HrP.
  destruct (negb (unicode.IsLetter (Lexeme tk)) && negb (unicode.IsDigit (Lexeme tk))).
  { inversion Hr; subst. rewrite Hpb, slice_empty, append_empty_r. split; [reflexivity | lia]. }
  assert (HN : Next t1 = ((tk, None), snd (Next t1))).
  { replace t1 with (snd (Peek t)) by (rewrite HP; reflexivity).
    rewrite Next_after_Peek, (Next_ok _ _ _ HP). reflexivity. }
  destruct (Next_text _ _ _ HrP HN) as (Hr2 & Hb0 & Hbp & Hsz & Htxt).
  destruct (IH _ _ _ _ Hr2 Hr) as [Hid Hle].
  rewrite Hpb in *. split; [|lia].
  rewrite Hid, Htxt, append_assoc, slice_app by lia. reflexivity.
Qed.

Lemma parseIdent_text (t : Tokenizer) (id : string) (t' : Tokenizer) :
  reachable s t ->
  parseIdent t = ((id, None), t') ->
  id = slice s (bytePos t) (bytePos t') /\
  0 <= bytePos t < bytePos t' /\ bytePos t' <= len s.
Proof.
  intros Hreach Hr. unfold parseIdent in Hr.
  destruct (Next t) as [[tk [e|]] t1] eqn:HN; [discriminate|].
  destruct (Next_text _ _ _ Hreach HN) as (Hr1 & Hb0 & Hbp & Hsz & Htxt).
  destruct (parseIdent_loop_text _ _ _ _ _ Hr1 Hr) as [Hid Hle].
  assert (Hr' : reachable s t').
  { pose proof (parseIdent_loop_good s (S (pending t1)) (utf8.string_of_rune (Lexeme tk)) _ Hr1)
      as [Hg _].
    rewrite Hr in Hg. exact Hg. }
  pose proof (reachable_inv _ _ Hr') as [_ Hb' _ _ _].
  split; [|lia].
  rewrite Hid, Htxt, slice_app by lia. reflexivity.
Qed.

(** The identifier [parseIdent] returns is the very bytes of the source
    between the byte offset where it was entered and the byte offset where
    it stopped, and it is at least one token long. *)
Theorem parseIdent_is_source_slice (t : Tokenizer) (id : string) (t' : Tokenizer) :
  reachable s t ->
  parseIdent t = ((id, None), t') ->
  id = slice s (bytePos t) (bytePos t') /\
  0 <= bytePos t < bytePos t' /\ bytePos t' <= len s.
Proof. apply parseIdent_text. Qed.

Lemma parseType_loop_text n :
  forall typ t typ' t',
  reachable s t -> (pending t < n)%nat ->
  parseType_loop n typ t = ((typ', None), t') ->
  typ' = strings.TrimSpace (typ +:+ slice s (bytePos t) (bytePos t'))
  /\ 0 <= bytePos t <= bytePos t'.
Proof.
  induction n as [|n IH]; intros typ t typ' t' Hreach Hn Hr; [lia|]. simpl in Hr.
  pose proof (reachable_inv _ _ Hreach) as [_ Hb _ _ _].
  pose proof (Peek_bytePos t) as Hpb. pose proof (reach_Peek _ _ Hreach) as HrP.
  destruct (Peek t) as [[tk err] t1] eqn:HP. cbn [snd] in Hpb, HrP.
  destruct (negb (is_nil err) && negb (is_io_EOF err)) eqn:Herr.
  { inversion Hr; subst. discriminate Herr. }
  destruct ((Lexeme tk =? 10) || (Lexeme tk =? 59) || is_io_EOF err) eqn:Hend.
  { inversion Hr; subst. rewrite Hpb, slice_empty, append_empty_r. split; [reflexivity | lia]. }
  assert (err = None) as ->.
  { destruct err as [e|]; [|reflexivity].
    destruct e; simpl in Herr, Hend; try discriminate.
    rewrite orb_true_r in Hend. discriminate. }
  assert (HN : Next t1 = ((tk, None), snd (Next t1))).
  { replace t1 with (snd (Peek t)) by (rewrite HP; reflexivity).
    rewrite Next_after_Peek, (Next_ok _ _ _ HP). reflexivity. }
  destruct (Next_text _ _ _ HrP HN) as (Hr2 & Hb0 & Hbp & Hsz & Htxt).
  pose proof (pending_Next_Peek _ _ _ HP) as Hlt.
  destruct (IH _ _ _ _ Hr2 ltac:(lia) Hr) as [Hid Hle].
  rewrite Hpb in *. split; [|lia].
  rewrite Hid, Htxt, append_assoc, slice_app by lia. reflexivity.
Qed.

(** The type text [parseType] returns is [strings.TrimSpace] of the very
    bytes of the source between the byte offset where it was entered and the
    byte offset where it stopped: nothing inside the text is changed or
    dropped. *)
Theorem parseType_is_trimmed_source_slice (t : Tokenizer) (typ : string) (t' : Tokenizer) :
  reachable s t ->
  parseType t = ((typ, None), t') ->
  typ = strings.TrimSpace (slice s (bytePos t) (bytePos t')) /\
  0 <= bytePos t < bytePos t' /\ bytePos t' <= len s.
Proof.
  intros Hreach Hr. unfold parseType in Hr.
  destruct (Next t) as [[tk [e|]] t1] eqn:HN; [discriminate|].
  destruct ((Lexeme tk =? 123) || (Lexeme tk =? 10) || (Lexeme tk =? 59)); [discriminate|].
  destruct (Next_text _ _ _ Hreach HN) as (Hr1 & Hb0 & Hbp & Hsz & Htxt).
  destruct (parseType_loop_text (S (pending t1)) _ _ _ _ Hr1 ltac:(lia) Hr) as [Hid Hle].
  assert (Hr' : reachable s t').
  { pose proof (parseType_loop_good s (S (pending t1)) (utf8.string_of_rune (Lexeme tk)) _ Hr1)
      as [Hg _].
    rewrite Hr in Hg. exact Hg. }
  pose proof (reachable_inv _ _ Hr') as [_ Hb' _ _ _].
  split; [|lia].
  rewrite Hid, Htxt, slice_app by lia. reflexivity.
Qed.

End Verbatim.

Lemma parseIdent_is_source_slice_witness :
  for_all_tables (fun U =>
    let t := snd (Next (NewTokenizer "(*File) x")) in
    let t := snd (Next t) in
    exists t', parseIdent t = (("File"%string, None), t') /\
               "File"%string = slice "(*File) x" (bytePos t) (bytePos t')).
Proof.
  constructor. intros U t0 t.
  exists (mkTokenizer "(*File) x" 6 6 0 1 (mkToken 0x29 1 7 1 6 6)).
  assert (HP : parseIdent t
               = (("File"%string, None), mkTokenizer "(*File) x" 6 6 0 1 (mkToken 0x29 1 7 1 6 6)))
    by (vm_compute; reflexivity).
  split; [exact HP|].
  apply (parseIdent_is_source_slice "(*File) x" t "File" _
           (reach_Next _ _ (reach_Next _ _ (reach_new _))) HP).
Defined.

Lemma parseType_is_trimmed_source_slice_witness :
  for_all_tables (fun U =>
    let t := snd (parseName (NewTokenizer "Foo  []int ;")) in
    let t' := mkTokenizer "Foo  []int ;" 11 11 0 1 (mkToken 0x3B 1 12 1 11 11) in
    parseType t = (("[]int"%string, None), t') /\
    "[]int"%string = strings.TrimSpace (slice "Foo  []int ;" (bytePos t) (bytePos t'))).
Proof.
  constructor. intros U t t'.
  assert (HP : parseType t = (("[]int"%string, None), t')) by (vm_compute; reflexivity).
  split; [exact HP|].
  assert (Hreach : reachable "Foo  []int ;" t).
  { unfold t. apply (parseName_good "Foo  []int ;" _ (reach_new _)). }
  apply (parseType_is_trimmed_source_slice "Foo  []int ;" t "[]int" t' Hreach HP).
Defined.

(** ** The keys of an Item's map *)

Lemma prefix_keys_inv (name : string) (def : smap) :
  forall k v, prefix_keys name def !! k = Some v ->
  exists sub, k = item_key name sub /\ def !! sub = Some v.
Proof.
  unfold prefix_keys.
  apply (map_fold_weak_ind (fun (r m : smap) =>
    forall k v, r !! k = Some v -> exists sub, k = item_key name sub /\ m !! sub = Some v)).
  - intros k v Hk. rewrite lookup_empty in Hk. discriminate.
  - intros i x m r Hi IH k v Hk.
    destruct (decide (item_key name i = k)) as [<-|Hne].
    + rewrite lookup_insert_eq in Hk. inversion Hk; subst.
      exists i. split; [reflexivity | apply lookup_insert_eq].
    + rewrite lookup_insert_ne in Hk by exact Hne.
      destruct (IH k v Hk) as (sub & -> & Hsub). exists sub. split; [reflexivity|].
      rewrite lookup_insert_ne; [exact Hsub|]. intros ->. apply Hne. reflexivity.
Qed.

Section ItemKeys.

Context `{UnicodeTables}.

(** The map of an Item that parses holds the entries of its Def and no
    others, each under the Item's name when the Def's key is empty (a type
    text), and under the name, a dot and the Def's key otherwise (an entry
    of a block); two entries of the Def never end under one key. *)
Theorem parseItem_keys (pl : Tokenizer -> option (parsed (option smap)))
    (t : Tokenizer) (m : smap) (t' : Tokenizer) :
  parseItem pl t = Some ((Some m, None), t') ->
  exists name t1 def t2,
    parseName t = ((name, None), t1) /\
    parseDef pl (SkipWhiteUntilLine t1) = Some ((def, None), t2) /\
    (forall sub, m !! item_key name sub = entries def !! sub) /\
    (forall k v, m !! k = Some v ->
       exists sub, k = item_key name sub /\ entries def !! sub = Some v) /\
    item_key name "" = name /\
    (forall sub, sub <> ""%string -> item_key name sub = name +:+ "." +:+ sub).
Proof.
  rewrite parseItem_as_close.
  destruct (parseName t) as [[name [e|]] t1] eqn:HN; [discriminate|].
  destruct (parseDef pl (SkipWhiteUntilLine t1)) as [[[def [e|]] t2]|] eqn:HD;
    [discriminate| |discriminate].
  cbn [parseItem_close].
  destruct (Next (SkipWhiteUntilLine t2)) as [[tk err] t3].
  destruct (negb (is_nil err) && negb (is_io_EOF err)); [discriminate|].
  destruct (negb (is_io_EOF err) && negb (Lexeme tk =? 59) && negb (Lexeme tk =? 10));
    [discriminate|].
  intros Hr; inversion Hr; subst.
  exists name, t1, def, t2.
  split; [reflexivity|]. split; [exact HD|].
  split; [apply prefix_keys_lookup|]. split; [apply prefix_keys_inv|].
  split; [reflexivity|].
  intros sub Hsub. unfold item_key.
  destruct (String.eqb_spec sub ""); [congruence | reflexivity].
Qed.

End ItemKeys.

Lemma parseItem_keys_witness :
  for_all_tables (fun U =>
    let m : smap := {[ "p.A"%string := "x"%string ]} in
    exists name t1 def t2,
      parseName (NewTokenizer "p { A x; }") = ((name, None), t1) /\
      parseDef parseList (SkipWhiteUntilLine t1) = Some ((def, None), t2) /\
      (forall sub, m !! item_key name sub = entries def !! sub)).
Proof.
  constructor. intros U m.
  destruct (parseItem_keys parseList (NewTokenizer "p { A x; }") m
              (mkTokenizer "p { A x; }" 10 10 0 1 Token0))
    as (name & t1 & def & t2 & HN & HD & Hk & _).
  - vm_compute. reflexivity.
  - exists name, t1, def, t2. split; [exact HN|]. split; [exact HD | exact Hk].
Defined.

(** ** A List is the fold of its Items *)

Lemma last_binding_is_Some (k : string) (ms : list smap) :
  forall acc,
  is_Some (last_binding k acc ms) <->
  is_Some acc \/ exists mi, mi ∈ ms /\ is_Some (mi !! k).
Proof.
  induction ms as [|m ms IH]; intros acc; simpl.
  - split; [auto|]. intros [Ha | (mi & Hin & _)]; [exact Ha | inversion Hin].
  - rewrite IH. split.
    + intros [Hs | (mi & Hin & Hk)].
      * destruct (m !! k) as [v|] eqn:Hm; [|left; exact Hs].
        right. exists m. split; [left | rewrite Hm; eauto].
      * right. exists mi. split; [right; exact Hin | exact Hk].
    + intros [Ha | (mi & Hin & Hk)].
      * left. destruct (m !! k); [eauto | exact Ha].
      * apply elem_of_cons in Hin as [-> | Hin].
        -- left. destruct Hk as [v Hv]. rewrite Hv. eauto.
        -- right. exists mi. split; assumption.
Qed.

Section ListIsFold.

Context `{UnicodeTables}.

Lemma parseList_from_items_inv n :
  forall anns t m t',
  (pending t < n)%nat ->
  parseList_from anns t = Some ((Some m, None), t') ->
  exists ms, items t ms t' /\ m = foldl merge_into anns ms.
Proof.
  induction n as [|n IH]; intros anns t m t' Hn Hr; [lia|].
  rewrite parseList_from_eq in Hr. unfold parseList_turn in Hr.
  pose proof (pending_SkipWhite t) as HS.
  pose proof (pending_Peek (SkipWhite t)) as HPk.
  destruct (Peek (SkipWhite t)) as [[tk err] t1] eqn:HP. cbn [snd] in HPk.
  destruct (negb (is_nil err) && negb (is_io_EOF err)) eqn:Herr; [discriminate|].
  destruct (is_io_EOF err
            || (negb (Lexeme tk =? 40) && negb (Lexeme tk =? 95)
                && negb (unicode.IsLetter (Lexeme tk)))) eqn:Hstop.
  { inversion Hr; subst. exists []. split; [|reflexivity].
    eapply items_stop; [exact HP|].
    destruct err as [e|].
    - left. destruct e; simpl in Herr; try discriminate. reflexivity.
    - right. split; [reflexivity | exact Hstop]. }
  assert (err = None) as ->.
  { destruct err as [e|]; [|reflexivity].
    destruct e; simpl in Herr, Hstop; discriminate. }
  destruct (parseItem parseList t1) as [[[itemAnns [e|]] t2]|] eqn:Hitem; [| |discriminate].
  { destruct (is_io_EOF (Some e)); discriminate. }
  pose proof (parseItem_shrinks _ _ Hitem) as [_ Hlt]. specialize (Hlt eq_refl).
  cbn [snd] in Hlt.
  destruct (parseItem_shape _ _ _ Hitem) as [[mi Hmi] | [e He]];
    cbn [fst] in *; [|discriminate].
  inversion Hmi; subst itemAnns.
  destruct (IH _ t2 _ _ ltac:(lia) Hr) as (ms & Hms & Hm).
  exists (mi :: ms). split; [|exact Hm].
  eapply items_item; eauto.
Qed.

(** When [Parse] returns a map, the source is a List of Items that all
    parse, and the map is the empty map updated by the map of each Item in
    the order of the source: a key is in the result exactly when some Item
    gave it. *)
Theorem Parse_is_fold_of_items (s : string) (m : smap) :
  Parse s = Some (Some m, None) ->
  exists ms t',
    items (NewTokenizer s) ms t' /\
    m = foldl merge_into ∅ ms /\
    forall k, is_Some (m !! k) <-> exists mi, mi ∈ ms /\ is_Some (mi !! k).
Proof.
  unfold Parse. intros HP.
  destruct (parseList (NewTokenizer s)) as [[[om oe] t']|] eqn:Hr; [|discriminate].
  inversion HP; subst om oe.
  destruct (parseList_from_items_inv (S (pending (NewTokenizer s))) ∅ (NewTokenizer s) m t'
              ltac:(lia) Hr)
    as (ms & Hitems & Hm).
  exists ms, t'. split; [exact Hitems|]. split; [exact Hm|].
  intros k. rewrite Hm, foldl_merge_into_lookup, last_binding_is_Some, lookup_empty.
  split.
  - intros [[v Hv] | Hex]; [discriminate | exact Hex].
  - intros Hex. right. exact Hex.
Qed.

End ListIsFold.

Lemma Parse_is_fold_of_items_witness :
  for_all_tables (fun U =>
    let m : smap := {[ "Foo"%string := "int"%string ]} in
    Parse "Foo int" = Some (Some m, None) /\
    exists ms, m = foldl merge_into ∅ ms).
Proof.
  constructor. intros U m.
  assert (HP : Parse "Foo int" = Some (Some m, None)) by (vm_compute; reflexivity).
  split; [exact HP|].
  destruct (Parse_is_fold_of_items "Foo int" m HP) as (ms & t' & _ & Hm & _).
  exists ms. exact Hm.
Defined.

(** ** Receivers and progress *)





Lemma Next_lookahead_clear t : Size (lookahead (snd (Next t))) <= 0.
Proof.
  destruct (Peek t) as [[tk [e|]] t1] eqn:HP.
  - rewrite (Next_err _ _ _ _ HP). simpl.
    pose proof (Peek_cases t) as Hc. rewrite HP in Hc. inversion Hc; lia.
  - rewrite (Next_ok _ _ _ HP). simpl.
    unfold advance. destruct (Lexeme tk =? 10); simpl; lia.
Qed.

Section Receivers.

Context `{UnicodeTables}.

Variable s : string.


(** An Item that parses consumes at least one byte of the source, and the
    tokenizer it leaves is still within the source: the loop of [parseList]
    cannot turn for ever. *)
Theorem parseItem_consumes (t : Tokenizer) (m : option smap) (t' : Tokenizer) :
  reachable s t ->
  parseItem parseList t = Some ((m, None), t') ->
  bytePos t < bytePos t' /\ bytePos t' <= len s.
Proof.
  intros Hreach Hitem.
  pose proof (parseItem_shrinks _ _ Hitem) as [_ Hlt]. specialize (Hlt eq_refl).
  cbn [snd] in Hlt.
  assert (Hgood : good s ((m, None), t')).
  { eapply (parseItem_good s parseList); [|exact Hreach | exact Hitem].
    intros u r Hu Hr. unfold parseList in Hr.
    eapply parseList_loop_good; eauto. }
  destruct Hgood as [Hr' _]. cbn [snd] in Hr'.
  assert (Hclear : Size (lookahead t') <= 0).
  { revert Hitem. rewrite parseItem_as_close.
    destruct (parseName t) as [[name [e|]] t1]; [intros Hi; discriminate Hi|].
    destruct (parseDef parseList (SkipWhiteUntilLine t1)) as [[[def [e|]] t2]|];
      [intros Hi; discriminate Hi | | intros Hi; discriminate Hi].
    cbn [parseItem_close].
    pose proof (Next_lookahead_clear (SkipWhiteUntilLine t2)) as Hc.
    destruct (Next (SkipWhiteUntilLine t2)) as [[tk err] t3]. cbn [snd] in Hc.
    destruct (negb (is_nil err) && negb (is_io_EOF err)) eqn:Herr.
    { intros Hi. inversion Hi; subst. discriminate Herr. }
    destruct (negb (is_io_EOF err) && negb (Lexeme tk =? 59) && negb (Lexeme tk =? 10));
      [intros Hi; discriminate Hi|].
    intros Hitem. inversion Hitem; subst. exact Hc. }
  pose proof (reachable_inv _ _ Hreach) as [Hs Hb _ _ Hla].
  pose proof (reachable_inv _ _ Hr') as [Hs' Hb' _ _ _].
  unfold pending in Hlt. rewrite Hs, Hs' in Hlt.
  assert (Hc' : (0 <? Size (lookahead t')) = false) by lia. rewrite Hc' in Hlt.
  destruct (0 <? Size (lookahead t)) eqn:Hl0.
  - destruct (Hla ltac:(lia)) as (r & _ & Hfit). lia.
  - lia.
Qed.

End Receivers.


Lemma parseItem_consumes_witness :
  for_all_tables (fun U =>
    let t := NewTokenizer "Foo int" in
    let t' := mkTokenizer "Foo int" 7 7 0 1 Token0 in
    parseItem parseList t = Some ((Some {[ "Foo"%string := "int"%string ]}, None), t') /\
    bytePos t < bytePos t').
Proof.
  constructor. intros U t t'.
  assert (HP : parseItem parseList t
               = Some ((Some {[ "Foo"%string := "int"%string ]}, None), t'))
    by (vm_compute; reflexivity).
  split; [exact HP|].
  apply (parseItem_consumes "Foo int" t _ t' (reach_new _) HP).
Defined.


(** ** The type text is trimmed *)

Lemma length_string_to k x :
  String.length (string_to k x) = Nat.min k (String.length x).
Proof.
  revert x. induction k as [|k IH]; intros x; [reflexivity|].
  destruct x as [|c x]; [reflexivity|]. simpl. rewrite IH. reflexivity.
Qed.

Lemma string_to_string_to j k x :
  string_to j (string_to k x) = string_to (Nat.min j k) x.
Proof.
  revert k x. induction j as [|j IH]; intros k x; [reflexivity|].
  destruct k as [|k]; [reflexivity|].
  destruct x as [|c x]; [reflexivity|]. simpl. rewrite IH. reflexivity.
Qed.

Lemma string_to_all x : string_to (String.length x) x = x.
Proof. induction x as [|c x IH]; [reflexivity|]. simpl. rewrite IH. reflexivity. Qed.

Lemma DecodeLastRuneInString_size x r size :
  x <> EmptyString ->
  utf8.DecodeLastRuneInString x = (r, size) ->
  1 <= size <= len x.
Proof.
  intros Hne Hd.
  assert (Hlen : 1 <= len x).
  { destruct x; [congruence|]. rewrite len_String. pose proof (len_nonneg x). lia. }
  unfold utf8.DecodeLastRuneInString in Hd.
  destruct (len x =? 0) eqn:H0; [lia|].
  destruct (byte_at x (len x - 1) <? utf8.RuneSelf); [inversion Hd; lia|].
  unfold utf8.UTFMax in Hd.
  match type of Hd with
  | context [Z.to_nat ?e] => remember e as start eqn:Hs
  end.
  assert (Hs' : 0 <= start <= len x - 1).
  { rewrite Hs.
    repeat match goal with |- context [if ?c then _ else _] => destruct c eqn:? end; lia. }
  clear Hs.
  destruct (utf8.DecodeRuneInString (string_from (Z.to_nat start) x)) as [r' size'].
  destruct (negb (start + size' =? len x)) eqn:Hend; inversion Hd; subst; [lia|].
  apply negb_false_iff in Hend. lia.
Qed.

Lemma TrimRightSpace_prefix n x : exists k, strings.TrimRightSpace n x = string_to k x.
Proof.
  revert x. induction n as [|n IH]; intros x.
  - exists (String.length x). simpl. destruct x; rewrite string_to_all; reflexivity.
  - destruct x as [|c x]; [exists 0%nat; reflexivity|].
    cbn [strings.TrimRightSpace].
    destruct (utf8.DecodeLastRuneInString (String c x)) as [r size].
    destruct (unicode.IsSpace r).
    + destruct (IH (string_to (Z.to_nat (len (String c x) - size)) (String c x))) as [k Hk].
      rewrite Hk, string_to_string_to. eauto.
    + exists (String.length (String c x)). rewrite string_to_all. reflexivity.
Qed.

Lemma TrimRightSpace_post n x :
  (String.length x <= n)%nat ->
  strings.TrimRightSpace n x = EmptyString \/
  unicode.IsSpace (fst (utf8.DecodeLastRuneInString (strings.TrimRightSpace n x))) = false.
Proof.
  revert x. induction n as [|n IH]; intros x Hn.
  - destruct x; simpl in Hn; [left; reflexivity | lia].
  - destruct x as [|c x]; [left; reflexivity|].
    cbn [strings.TrimRightSpace].
    destruct (utf8.DecodeLastRuneInString (String c x)) as [r size] eqn:Hd.
    destruct (unicode.IsSpace r) eqn:Hsp.
    + apply IH. rewrite length_string_to.
      assert (Hne : String c x <> EmptyString) by discriminate.
      destruct (DecodeLastRuneInString_size _ _ _ Hne Hd) as [H1 H2].
      unfold len in *. lia.
    + right. rewrite Hd. exact Hsp.
Qed.

Lemma TrimLeftSpace_post n x :
  (String.length x <= n)%nat ->
  strings.TrimLeftSpace n x = EmptyString \/
  unicode.IsSpace (fst (utf8.DecodeRuneInString (strings.TrimLeftSpace n x))) = false.
Proof.
  revert x. induction n as [|n IH]; intros x Hn.
  - destruct x; simpl in Hn; [left; reflexivity | lia].
  - destruct x as [|c x]; [left; reflexivity|].
    cbn [strings.TrimLeftSpace].
    destruct (utf8.DecodeRuneInString (String c x)) as [r size] eqn:Hd.
    destruct (unicode.IsSpace r) eqn:Hsp.
    + apply IH.
      assert (Hne : String c x <> EmptyString) by discriminate.
      destruct (DecodeRuneInString_size _ _ _ Hne Hd) as [[H1 H2] _].
      assert (Hlen : len (string_from (Z.to_nat size) (String c x)) = len (String c x) - size).
      { rewrite string_from_len; unfold len in *; lia. }
      unfold len in *. lia.
    + right. rewrite Hd. exact Hsp.
Qed.

Ltac len_facts :=
  repeat rewrite len_String in *;
  change (len EmptyString) with 0 in *;
  repeat match goal with
  | l : string |- _ =>
      lazymatch goal with
      | _ : 0 <= len l |- _ => fail
      | _ => pose proof (len_nonneg l)
      end
  end.

Ltac split_decodes H1 H2 :=
  repeat match type of H1 with
  | context [if ?b then _ else _] => destruct b eqn:?
  end;
  repeat match type of H2 with
  | context [if ?b then _ else _] => destruct b eqn:?
  end;
  inversion H1; inversion H2; subst;
  first [ left; reflexivity | right; reflexivity | exfalso; len_facts; lia ].

(** Cutting a string short changes the first rune it decodes to only into
    [utf8.RuneError]. *)
Lemma DecodeRuneInString_prefix k l r1 n1 r2 n2 :
  string_to k l <> EmptyString ->
  utf8.DecodeRuneInString (string_to k l) = (r1, n1) ->
  utf8.DecodeRuneInString l = (r2, n2) ->
  r1 = r2 \/ r1 = utf8.RuneError.
Proof.
  intros Hne H1 H2.
  destruct l as [|c0 l]; [destruct k; simpl in Hne; congruence|].
  destruct k as [|k]; [simpl in Hne; congruence|].
  simpl string_to in H1. clear Hne.
  unfold utf8.DecodeRuneInString in H1, H2.
  pose proof (byte_val_range c0) as Hb0.
  destruct (first_cases _ Hb0)
    as [[H0 Hf]|[Hf|[[H0 Hf]|[[H0 Hf]|[[H0 Hf]|[[H0 Hf]|[[H0 Hf]|[[H0 Hf]|[H0 Hf]]]]]]]]];
    rewrite Hf in H1, H2;
    [ class_consts utf8.as_ H1; class_consts utf8.as_ H2
    | class_consts utf8.xx H1; class_consts utf8.xx H2
    | class_consts utf8.s1 H1; class_consts utf8.s1 H2
    | class_consts utf8.s2 H1; class_consts utf8.s2 H2
    | class_consts utf8.s3 H1; class_consts utf8.s3 H2
    | class_consts utf8.s4 H1; class_consts utf8.s4 H2
    | class_consts utf8.s5 H1; class_consts utf8.s5 H2
    | class_consts utf8.s6 H1; class_consts utf8.s6 H2
    | class_consts utf8.s7 H1; class_consts utf8.s7 H2 ];
    try (inversion H1; inversion H2; subst; left; reflexivity).
  all: destruct l as [|c1 l]; [destruct k; simpl string_to in H1; split_decodes H1 H2|].
  all: destruct k as [|k]; [simpl string_to in H1; split_decodes H1 H2|].
  all: simpl string_to in H1.
  all: try (split_decodes H1 H2; fail).
  all: destruct l as [|c2 l]; [destruct k; simpl string_to in H1; split_decodes H1 H2|].
  all: destruct k as [|k]; [simpl string_to in H1; split_decodes H1 H2|].
  all: simpl string_to in H1.
  all: try (split_decodes H1 H2; fail).
  all: destruct l as [|c3 l]; [destruct k; simpl string_to in H1; split_decodes H1 H2|].
  all: destruct k as [|k]; [simpl string_to in H1; split_decodes H1 H2|].
  all: simpl string_to in H1.
  all: split_decodes H1 H2.
Qed.

(** A text without white space at either end: its first rune and its last
    rune, as [utf8] decodes them, are not white space. *)
Definition trimmed (x : string) : Prop :=
  unicode.IsSpace (fst (utf8.DecodeRuneInString x)) = false /\
  unicode.IsSpace (fst (utf8.DecodeLastRuneInString x)) = false.

Lemma string_to_empty_inv k l : string_to k l <> EmptyString -> l <> EmptyString.
Proof. intros Hne ->. destruct k; simpl in Hne; congruence. Qed.

Lemma first_rune_of_prefix k l :
  string_to k l <> EmptyString ->
  unicode.IsSpace (fst (utf8.DecodeRuneInString l)) = false ->
  unicode.IsSpace (fst (utf8.DecodeRuneInString (string_to k l))) = false.
Proof.
  intros Hne Hl.
  destruct (utf8.DecodeRuneInString (string_to k l)) as [r1 n1] eqn:H1.
  destruct (utf8.DecodeRuneInString l) as [r2 n2] eqn:H2.
  destruct (DecodeRuneInString_prefix _ _ _ _ _ _ Hne H1 H2) as [-> | ->];
    [exact Hl | reflexivity].
Qed.

Lemma TrimSpace_trimmed x :
  strings.TrimSpace x = EmptyString \/ trimmed (strings.TrimSpace x).
Proof.
  unfold strings.TrimSpace.
  set (l := strings.TrimLeftSpace (String.length x) x).
  destruct (TrimRightSpace_post (String.length l) l ltac:(lia)) as [He | Hlast];
    [left; exact He|].
  destruct (strings.TrimRightSpace (String.length l) l) as [|c p] eqn:Hp;
    [left; reflexivity|].
  right. split; [|exact Hlast].
  destruct (TrimRightSpace_prefix (String.length l) l) as [k Hk].
  rewrite Hp in Hk. rewrite Hk.
  assert (Hne : string_to k l <> EmptyString) by (rewrite <- Hk; discriminate).
  apply first_rune_of_prefix; [exact Hne|].
  destruct (TrimLeftSpace_post (String.length x) x ltac:(lia)) as [He | Hfirst];
    [|exact Hfirst].
  exfalso. apply (string_to_empty_inv _ _ Hne). exact He.
Qed.

(** When the last rune of a string is the whole string, it is its first
    rune. *)
Lemma DecodeLastRuneInString_whole y r size :
  utf8.DecodeLastRuneInString y = (r, size) ->
  size = len y -> r <> utf8.RuneError ->
  utf8.DecodeRuneInString y = (r, size).
Proof.
  intros Hd Hsz Hr.
  destruct y as [|c y]; [simpl in Hd; inversion Hd; congruence|].
  assert (Hlen : 1 <= len (String c y))
    by (rewrite len_String; pose proof (len_nonneg y); lia).
  unfold utf8.DecodeLastRuneInString in Hd.
  destruct (len (String c y) =? 0) eqn:H0; [lia|].
  destruct (byte_at (String c y) (len (String c y) - 1) <? utf8.RuneSelf) eqn:Hascii.
  - inversion Hd; subst r size.
    assert (Hy : y = EmptyString).
    { destruct y; [reflexivity|]. rewrite !len_String in H2.
      pose proof (len_nonneg y). lia. }
    subst y. unfold byte_at in *. simpl in Hascii |- *.
    unfold utf8.DecodeRuneInString.
    assert (Hf : utf8.first (byte_val c) = utf8.as_).
    { unfold utf8.first, utf8.RuneSelf in *. rewrite Hascii. reflexivity. }
    rewrite Hf. reflexivity.
  - unfold utf8.UTFMax in Hd.
    match type of Hd with
    | context [Z.to_nat ?e] => remember e as start eqn:Hs
    end.
    assert (Hs' : 0 <= start) by
      (rewrite Hs;
       repeat match goal with |- context [if ?c then _ else _] => destruct c eqn:? end; lia).
    clear Hs.
    destruct (utf8.DecodeRuneInString (string_from (Z.to_nat start) (String c y)))
      as [r' size'] eqn:Hd'.
    destruct (negb (start + size' =? len (String c y))) eqn:Hend;
      inversion Hd; subst; [congruence|].
    apply negb_false_iff in Hend.
    assert (start = 0) by lia. subst start. simpl in Hd'. exact Hd'.
Qed.

Lemma TrimRightSpace_nonempty l n :
  forall j,
  string_to j l <> EmptyString ->
  unicode.IsSpace (fst (utf8.DecodeRuneInString l)) = false ->
  strings.TrimRightSpace n (string_to j l) <> EmptyString.
Proof.
  induction n as [|n IH]; intros j Hne Hl.
  - simpl. destruct (string_to j l); exact Hne.
  - destruct (string_to j l) as [|c y] eqn:Hy; [congruence|].
    cbn [strings.TrimRightSpace].
    destruct (utf8.DecodeLastRuneInString (String c y)) as [r size] eqn:Hd.
    destruct (unicode.IsSpace r) eqn:Hsp; [|discriminate].
    destruct (DecodeLastRuneInString_size _ _ _ Hne Hd) as [H1 H2].
    rewrite <- Hy, string_to_string_to. apply IH; [|exact Hl].
    rewrite <- string_to_string_to, Hy.
    intros Hempty.
    assert (Hsz : size = len (String c y)).
    { assert (Hl0 : String.length (string_to (Z.to_nat (len (String c y) - size)) (String c y)) = 0%nat)
        by (rewrite Hempty; reflexivity).
      rewrite length_string_to in Hl0. unfold len in *. simpl String.length in *. lia. }
    assert (Hr : r <> utf8.RuneError) by (intros ->; discriminate Hsp).
    pose proof (DecodeLastRuneInString_whole _ _ _ Hd Hsz Hr) as Hfirst.
    pose proof (first_rune_of_prefix j l ltac:(rewrite Hy; discriminate) Hl) as Hns.
    rewrite Hy, Hfirst in Hns. simpl in Hns. congruence.
Qed.

(** [strings.TrimSpace] leaves a text that does not begin with white space
    non-empty. *)
Lemma TrimSpace_nonempty x :
  x <> EmptyString ->
  unicode.IsSpace (fst (utf8.DecodeRuneInString x)) = false ->
  strings.TrimSpace x <> EmptyString.
Proof.
  intros Hne Hx. unfold strings.TrimSpace.
  assert (Hl : strings.TrimLeftSpace (String.length x) x = x).
  { destruct x as [|c x]; [congruence|]. cbn [String.length strings.TrimLeftSpace].
    destruct (utf8.DecodeRuneInString (String c x)) as [r size]. simpl in Hx.
    rewrite Hx. reflexivity. }
  rewrite Hl. rewrite <- (string_to_all x) at 2.
  apply TrimRightSpace_nonempty; [rewrite string_to_all; exact Hne | exact Hx].
Qed.

(** ** No empty and no untrimmed value *)

(** A value of the map: a text that is not empty and has no white space at
    either end. *)
Definition value_ok (v : string) : Prop := v <> EmptyString /\ trimmed v.

Definition values_ok (m : smap) : Prop := forall k v, m !! k = Some v -> value_ok v.

(** The next token, if there is one, is a line feed or no white space: where
    [SkipWhiteUntilLine] stops. *)
Definition at_def (t : Tokenizer) : Prop :=
  forall tk t1, Peek t = ((tk, None), t1) ->
  Lexeme tk = 0x0A \/ unicode.IsSpace (Lexeme tk) = false.

Lemma values_ok_empty : values_ok ∅.
Proof. intros k v Hk. rewrite lookup_empty in Hk. discriminate. Qed.

Lemma values_ok_merge_into anns m :
  values_ok anns -> values_ok m -> values_ok (merge_into anns m).
Proof.
  intros Ha Hm k v Hk. rewrite merge_into_lookup in Hk.
  destruct (m !! k) as [w|] eqn:Hw.
  - inversion Hk; subst. exact (Hm _ _ Hw).
  - exact (Ha _ _ Hk).
Qed.

Lemma values_ok_prefix_keys name def : values_ok def -> values_ok (prefix_keys name def).
Proof.
  intros Hd k v Hk. destruct (prefix_keys_inv _ _ _ _ Hk) as (sub & _ & Hs).
  exact (Hd _ _ Hs).
Qed.

Lemma at_def_SkipWhiteUntilLine t : at_def (SkipWhiteUntilLine t).
Proof.
  destruct (SkipWhiteUntilLine_stop_below (S (pending t)) t ltac:(lia))
    as (_ & _ & _ & (tk & err & HP & Hstop) & _).
  intros tk' t1 HP'. rewrite HP in HP'. inversion HP'; subst.
  destruct Hstop as [Hn | Hstop]; [congruence | exact Hstop].
Qed.

Section Values.

Context `{UnicodeTables}.

Variable s : string.

Lemma slice_nonempty a b :
  0 <= a < b -> b <= len s -> slice s a b <> EmptyString.
Proof.
  intros Hab Hb Hempty.
  assert (Hl : String.length (slice s a b) = 0%nat) by (rewrite Hempty; reflexivity).
  unfold slice in Hl. rewrite length_string_to in Hl.
  assert (Hf : len (string_from (Z.to_nat a) s) = len s - Z.of_nat (Z.to_nat a))
    by (apply string_from_len; unfold len in *; lia).
  unfold len in *. lia.
Qed.

(** A type text that starts with a token that is no white space is not
    empty, and it has no white space at either end. *)
Lemma parseType_value t typ t' :
  reachable s t ->
  (forall tk t1, Next t = ((tk, None), t1) -> unicode.IsSpace (Lexeme tk) = false) ->
  parseType t = ((typ, None), t') ->
  value_ok typ.
Proof.
  intros Hreach Hfirst Hr. unfold parseType in Hr.
  destruct (Next t) as [[tk [e|]] t1] eqn:HN; [discriminate|].
  destruct ((Lexeme tk =? 123) || (Lexeme tk =? 10) || (Lexeme tk =? 59)); [discriminate|].
  pose proof (Hfirst _ _ eq_refl) as Hns.
  destruct (Next_text _ _ _ _ Hreach HN) as (Hr1 & Hb0 & Hbp & Hsz & Htxt).
  destruct (parseType_loop_text _ (S (pending t1)) _ _ _ _ Hr1 ltac:(lia) Hr) as [Hid Hle].
  assert (Hr' : reachable s t').
  { pose proof (parseType_loop_good s (S (pending t1)) (utf8.string_of_rune (Lexeme tk)) _ Hr1)
      as [Hg _].
    rewrite Hr in Hg. exact Hg. }
  pose proof (reachable_inv _ _ Hr') as [_ Hb' _ _ _].
  rewrite Htxt, slice_app in Hid by lia.
  assert (Hne : slice s (bytePos t) (bytePos t') <> EmptyString)
    by (apply slice_nonempty; lia).
  assert (Hsp : unicode.IsSpace
                  (fst (utf8.DecodeRuneInString (slice s (bytePos t) (bytePos t')))) = false).
  { unfold slice in Hne |- *. apply first_rune_of_prefix; [exact Hne|].
    apply Next_inv_ok in HN as [HP _].
    destruct (Peek_source_token _ _ _ _ Hreach HP) as ((Hd & _) & Hpos & _).
    rewrite Hpos in Hd. rewrite Hd. exact Hns. }
  subst typ. split.
  - apply TrimSpace_nonempty; assumption.
  - destruct (TrimSpace_trimmed (slice s (bytePos t) (bytePos t'))) as [He | Ht];
      [|exact Ht].
    exfalso. revert He. apply TrimSpace_nonempty; assumption.
Qed.

Section WithList.

Variable pl : Tokenizer -> option (parsed (option smap)).

Hypothesis pl_values :
  forall u anns u', reachable s u -> pl u = Some ((anns, None), u') -> values_ok (entries anns).

Lemma parseDef_values t def t' :
  reachable s t -> at_def t ->
  parseDef pl t = Some ((def, None), t') -> values_ok (entries def).
Proof.
  intros Hreach Hat. unfold parseDef.
  pose proof (reach_Peek _ _ Hreach) as HrP.
  destruct (Peek t) as [[tk [e0|]] t1] eqn:HP; [discriminate|]. cbn [snd] in HrP.
  destruct (Lexeme tk =? 123) eqn:Hbrace.
  - pose proof (reachable_SkipWhite _ _ (reach_Next _ _ HrP)) as H1.
    destruct (pl (SkipWhite (snd (Next t1)))) as [[[anns [e0|]] t2]|] eqn:Hpl;
      [discriminate| |discriminate].
    destruct (expect 125 (SkipWhite t2)) as [[e0|] t3]; [discriminate|].
    intros Hr; inversion Hr; subst. exact (pl_values _ _ _ H1 Hpl).
  - destruct (parseType t1) as [[typ [e0|]] t2] eqn:HT; [discriminate|].
    intros Hr; inversion Hr; subst.
    change (values_ok {[ ""%string := typ ]}).
    assert (HN : Next t1 = ((tk, None), advance t tk)).
    { replace t1 with (snd (Peek t)) by (rewrite HP; reflexivity).
      rewrite Next_after_Peek. exact (Next_ok _ _ _ HP). }
    assert (Hv : value_ok typ).
    { apply (parseType_value t1 typ t' HrP); [|exact HT].
      intros tk' t1' HN'. rewrite HN in HN'. inversion HN'; subst tk'.
      destruct (Hat _ _ HP) as [Hnl | Hns]; [|exact Hns].
      exfalso. unfold parseType in HT. rewrite HN in HT.
      assert (Hq : (Lexeme tk =? 10) = true) by lia.
      rewrite Hq, orb_true_r in HT. cbn [orb] in HT. discriminate. }
    intros k v Hk. apply lookup_singleton_Some in Hk as [_ <-]. exact Hv.
Qed.

Lemma parseItem_values t m t' :
  reachable s t -> parseItem pl t = Some ((m, None), t') -> values_ok (entries m).
Proof.
  intros Hreach. rewrite parseItem_as_close.
  destruct (parseName_good s t Hreach) as [H1 _].
  destruct (parseName t) as [[name [e0|]] t1]; [discriminate|]. cbn [snd] in H1.
  destruct (parseDef pl (SkipWhiteUntilLine t1)) as [[[def [e|]] t2]|] eqn:HD;
    [discriminate| |discriminate].
  cbn [parseItem_close].
  destruct (Next (SkipWhiteUntilLine t2)) as [[tk err] t3].
  destruct (negb (is_nil err) && negb (is_io_EOF err)) eqn:Herr.
  { intros Hr; inversion Hr; subst. discriminate Herr. }
  destruct (negb (is_io_EOF err) && negb (Lexeme tk =? 59) && negb (Lexeme tk =? 10));
    [discriminate|].
  intros Hr; inversion Hr; subst.
  change (values_ok (prefix_keys name (entries def))).
  apply values_ok_prefix_keys.
  apply (parseDef_values (SkipWhiteUntilLine t1) def t2);
    [apply reachable_SkipWhiteUntilLine; exact H1 | apply at_def_SkipWhiteUntilLine | exact HD].
Qed.

End WithList.

Lemma parseList_loop_values n :
  forall anns t m t',
  values_ok anns -> reachable s t ->
  parseList_loop n anns t = Some ((m, None), t') -> values_ok (entries m).
Proof.
  induction n as [|n IH]; intros anns t m t' Ha Hreach Hr; [discriminate|].
  rewrite parseList_loop_S in Hr. unfold parseList_turn in Hr.
  destruct (Peek_good s _ (reachable_SkipWhite _ _ Hreach)) as [HrP _].
  destruct (Peek (SkipWhite t)) as [[tk err] t1]; cbn [fst snd] in *.
  destruct (negb (is_nil err) && negb (is_io_EOF err)) eqn:Herr.
  { inversion Hr; subst. discriminate Herr. }
  destruct (is_io_EOF err
            || (negb (Lexeme tk =? 40) && negb (Lexeme tk =? 95)
                && negb (unicode.IsLetter (Lexeme tk)))).
  { inversion Hr; subst. exact Ha. }
  destruct (parseItem (parseList_loop n ∅) t1) as [[[itemAnns [e0|]] t2]|] eqn:Hitem;
    [| |discriminate].
  - destruct (is_io_EOF (Some e0)); discriminate.
  - pose proof (parseItem_good s (parseList_loop n ∅)
                  (fun u r' => parseList_loop_good s n ∅ u r') _ _ HrP Hitem) as [H2 _].
    cbn [snd] in H2.
    apply (IH _ _ _ _ (values_ok_merge_into _ _ Ha
             (parseItem_values (parseList_loop n ∅)
                (fun u a u' Hu Hp => IH ∅ u a u' values_ok_empty Hu Hp) _ _ _ HrP Hitem))
             H2 Hr).
Qed.

(** No value of the map [Parse] returns is empty, and none begins or ends
    with white space: the first rune and the last rune of a value, as
    [utf8] decodes them, are not white space. *)
Theorem Parse_values_trimmed (m : smap) (k v : string) :
  Parse s = Some (Some m, None) ->
  m !! k = Some v ->
  v <> EmptyString /\
  unicode.IsSpace (fst (utf8.DecodeRuneInString v)) = false /\
  unicode.IsSpace (fst (utf8.DecodeLastRuneInString v)) = false.
Proof.
  unfold Parse, parseList.
  destruct (parseList_loop (S (pending (NewTokenizer s))) ∅ (NewTokenizer s))
    as [[r t]|] eqn:Hr; [|discriminate].
  intros Heq Hk; inversion Heq; subst r.
  exact (parseList_loop_values _ _ _ _ _ values_ok_empty (reach_new s) Hr k v Hk).
Qed.

End Values.

Lemma Parse_values_trimmed_witness :
  for_all_tables (fun U =>
    let m : smap := {[ "Foo"%string := "[]int"%string ]} in
    Parse "Foo  []int  ;" = Some (Some m, None) /\
    "[]int"%string <> EmptyString /\
    unicode.IsSpace (fst (utf8.DecodeRuneInString "[]int")) = false /\
    unicode.IsSpace (fst (utf8.DecodeLastRuneInString "[]int")) = false).
Proof.
  constructor. intros U m.
  assert (HP : Parse "Foo  []int  ;" = Some (Some m, None)) by (vm_compute; reflexivity).
  split; [exact HP|].
  apply (Parse_values_trimmed "Foo  []int  ;" m "Foo" "[]int" HP).
  vm_compute. reflexivity.
Defined.

(** ** Lines and columns *)

(** The line and the column after the text [x], counted from the line [l]
    and the column [c]: a line feed starts a new line at column 1, and
    every other byte that starts a rune is one more column. *)
Fixpoint position_after (x : string) (l c : Z) : Z * Z :=
  match x with
  | EmptyString => (l, c)
  | String b x =>
    if byte_val b =? 0x0A then position_after x (l + 1) 1
    else if utf8.RuneStart (byte_val b) then position_after x l (c + 1)
    else position_after x l c
  end.

(** The line and the column of the byte offset [offset] of the text [s],
    both counted from 1. *)
Definition position_of (s : string) (offset : Z) : Z * Z :=
  position_after (slice s 0 offset) 1 1.

Lemma position_after_app a b :
  forall l c,
  position_after (a +:+ b) l c = position_after b (fst (position_after a l c))
                                                  (snd (position_after a l c)).
Proof.
  induction a as [|x a IH]; intros l c; [reflexivity|].
  change (String x a +:+ b) with (String x (a +:+ b)). cbn [position_after].
  destruct (byte_val x =? 10); [apply IH|].
  destruct (utf8.RuneStart (byte_val x)); apply IH.
Qed.

Lemma RuneStart_byte c :
  utf8.RuneStart (byte_val c) = negb ((0x80 <=? byte_val c) && (byte_val c <=? 0xBF)).
Proof. destruct c as [[] [] [] [] [] [] [] []]; vm_compute; reflexivity. Qed.

Ltac count_position :=
  cbn [position_after]; rewrite ?RuneStart_byte;
  repeat match goal with
  | |- context [if ?b then _ else _] => destruct b eqn:?
  end; try reflexivity; exfalso; lia.

(** The bytes of one rune are one column, or one line when the rune is a
    line feed. *)
Lemma DecodeRuneInString_position x r size l c :
  utf8.DecodeRuneInString x = (r, size) -> r <> utf8.RuneError ->
  position_after (string_to (Z.to_nat size) x) l c
  = if r =? 0x0A then (l + 1, 1) else (l, c + 1).
Proof.
  intros Hd Hr. destruct x as [|c0 x0]; [simpl in Hd; inversion Hd; congruence|].
  unfold utf8.DecodeRuneInString in Hd.
  pose proof (byte_val_range c0) as Hb0.
  destruct (first_cases _ Hb0)
    as [[H0 Hf]|[Hf|[[H0 Hf]|[[H0 Hf]|[[H0 Hf]|[[H0 Hf]|[[H0 Hf]|[[H0 Hf]|[H0 Hf]]]]]]]]];
    rewrite Hf in Hd.
  - class_consts utf8.as_ Hd. inversion Hd; subst.
    change (Z.to_nat 1) with 1%nat. cbn [string_to]. count_position.
  - class_consts utf8.xx Hd. inversion Hd; subst. congruence.
  - class_consts utf8.s1 Hd. decoded Hd.
    pose proof (byte_val_range a) as Hb1.
    destruct (enc2 (byte_val c0) (byte_val a)) as (Hrange & _); [lia | lia |].
    change (Z.to_nat 2) with 2%nat. cbn [string_to]. count_position.
  - class_consts utf8.s2 Hd. decoded Hd.
    destruct (enc3 (byte_val c0) (byte_val a) (byte_val a0)) as (Hrange & _); try lia.
    change (Z.to_nat 3) with 3%nat. cbn [string_to]. count_position.
  - class_consts utf8.s3 Hd. decoded Hd.
    destruct (enc3 (byte_val c0) (byte_val a) (byte_val a0)) as (Hrange & _); try lia.
    change (Z.to_nat 3) with 3%nat. cbn [string_to]. count_position.
  - class_consts utf8.s4 Hd. decoded Hd.
    destruct (enc3 (byte_val c0) (byte_val a) (byte_val a0)) as (Hrange & _); try lia.
    change (Z.to_nat 3) with 3%nat. cbn [string_to]. count_position.
  - class_consts utf8.s5 Hd. decoded Hd.
    destruct (enc4 (byte_val c0) (byte_val a) (byte_val a0) (byte_val a1))
      as (Hrange & _); try lia.
    change (Z.to_nat 4) with 4%nat. cbn [string_to]. count_position.
  - class_consts utf8.s6 Hd. decoded Hd.
    destruct (enc4 (byte_val c0) (byte_val a) (byte_val a0) (byte_val a1))
      as (Hrange & _); try lia.
    change (Z.to_nat 4) with 4%nat. cbn [string_to]. count_position.
  - class_consts utf8.s7 Hd. decoded Hd.
    destruct (enc4 (byte_val c0) (byte_val a) (byte_val a0) (byte_val a1))
      as (Hrange & _); try lia.
    change (Z.to_nat 4) with 4%nat. cbn [string_to]. count_position.
Qed.

(** The counters of every state the program builds give the position of
    its byte offset. *)
Lemma reachable_position s t :
  reachable s t -> position_of s (bytePos t) = (line t, col t).
Proof.
  induction 1 as [|t Hreach IH|t Hreach IH].
  - reflexivity.
  - pose proof (Peek_counters t) as Hc. unfold counters in Hc.
    inversion Hc as [[Hl Hcol Hb Hr]]. rewrite Hl, Hcol, Hb. exact IH.
  - destruct (Peek t) as [[tk [e|]] t1] eqn:HP.
    + rewrite (Next_err _ _ _ _ HP). exact IH.
    + pose proof (reachable_inv _ _ Hreach) as [_ Hb _ _ _].
      destruct (Peek_source_token _ _ _ _ Hreach HP)
        as ((Hd & Hne & Hsz & _ & Hfit & _) & Hbp & _).
      rewrite (Next_ok _ _ _ HP). cbn [snd].
      unfold position_of in *. rewrite advance_bytePos.
      rewrite <- (slice_app s 0 (bytePos t) (bytePos t + Size tk)) by lia.
      rewrite position_after_app, IH. cbn [fst snd].
      unfold slice at 1.
      replace (bytePos t + Size tk - bytePos t) with (Size tk) by lia.
      rewrite <- Hbp. rewrite (DecodeRuneInString_position _ _ _ _ _ Hd Hne).
      unfold advance, col. destruct (Lexeme tk =? 10); cbn; f_equal; lia.
Qed.

(** The line and the column a token carries are the line and the column of
    its byte offset in the source, counted from 1 with every rune one
    column and every line feed one line; and so are the line and the column
    a [UTF8Error] carries, for the byte offset at which decoding failed. *)
Theorem token_position_in_source (s : string) (t : Tokenizer) :
  reachable s t ->
  (forall tk t1, Peek t = ((tk, None), t1) ->
     (Line tk, Col tk) = position_of s (BytePos tk)) /\
  (forall tk l c t1, Peek t = ((tk, Some (UTF8Error l c)), t1) ->
     (l, c) = position_of s (bytePos t) /\
     fst (utf8.DecodeRuneInString (string_from (Z.to_nat (bytePos t)) s)) = utf8.RuneError).
Proof.
  intros Hreach. pose proof (reachable_position _ _ Hreach) as Hpos. split.
  - intros tk t1 HP.
    destruct (Peek_source_token _ _ _ _ Hreach HP) as (_ & Hb & _ & Hl & Hc).
    rewrite Hb, Hl, Hc, Hpos. reflexivity.
  - intros tk l c t1 HP.
    pose proof (reachable_inv _ _ Hreach) as [Hsrc _ _ _ _].
    pose proof (Peek_cases t) as Hc. rewrite HP in Hc.
    inversion Hc as [ | | size Hsz Hlt Hd | ]; subst.
    split; [rewrite Hpos; reflexivity|].
    unfold rest_of in Hd. rewrite Hd. reflexivity.
Qed.

Lemma token_position_in_source_witness :
  let s := e_acute_a +:+ LF +:+ e_acute_a in
  let t := snd (Next (snd (Next (snd (Next (NewTokenizer s)))))) in
  Peek t = ((mkToken 0xE9 2 1 2 4 3, None), set_lookahead t (mkToken 0xE9 2 1 2 4 3)) /\
  (2, 1) = position_of s 4.
Proof.
  intros s t.
  assert (HP : Peek t = ((mkToken 0xE9 2 1 2 4 3, None),
                         set_lookahead t (mkToken 0xE9 2 1 2 4 3)))
    by (vm_compute; reflexivity).
  split; [exact HP|].
  assert (Hreach : reachable s t)
    by (apply reach_Next, reach_Next, reach_Next, reach_new).
  exact (proj1 (token_position_in_source s t Hreach) _ _ HP).
Defined.
